(** * MyPortfolio: the photo pipeline and the contact endpoint

    A shallow embedding of the two flows of the repository that carry
    logic: the client-side profile photo pipeline of [src/Portfolio.jsx]
    (IndexedDB helpers, image resizing, the object-URL bookkeeping of the
    React component) and the Express contact backend (start-up check of the
    environment, rate limiter, field validation, HTML escaping, mail
    dispatch).

    Conventions.
    - A JavaScript string is a [string] whose characters are UTF-16 code
      units in the range U+0000..U+00FF; in that range a code unit is a
      character, so [String.length] is the length the validators see.
    - JavaScript numbers that the code only uses as integers (pixel sizes,
      millisecond clocks, hit counters) are [Z].
    - A promise that settles is an [outcome]: [Resolved v] or [Rejected e].
      The promise of a store write can also stay pending for ever; module
      [Await] has the photo pipeline under that third fate.
    - Browser and library services the code calls but does not define (image
      decoder, JPEG encoder, e-mail syntax check, e-mail canonicalisation,
      SMTP transport, binding the listen port) are section variables or
      function arguments. *)

From Stdlib Require Import ZArith Ascii String Lia.
From stdpp Require Import gmap strings list fin_maps.

Local Open Scope Z_scope.

(** ** Promises *)

Inductive outcome (E A : Type) : Type :=
| Resolved (a : A)
| Rejected (e : E).
Arguments Resolved {E A} a.
Arguments Rejected {E A} e.

(** ** Image normalisation: [drawToCanvas] *)

Module Image.

(** [{ width, height }] of an [Image] or of a canvas. *)
Record Size : Type := { width : Z; height : Z }.

(** [Math.round(a / b)] for integers [0 <= a], [0 < b]:
    [Math.round x] is [floor (x + 1/2)]. The double [a / b] lies on the
    same side of every half-integer as the exact quotient as long as the
    sizes stay below 2^42, so the integer formula is what the code
    computes on pixel sizes. *)
Definition round_div (a b : Z) : Z := (2 * a + b) / (2 * b).

(** The size [drawToCanvas(img, maxSize)] gives the canvas. *)
Definition drawToCanvas (img : Size) (maxSize : Z) : Size :=
  let w := width img in
  let h := height img in
  if w >? h then
    if w >? maxSize
    then {| width := maxSize; height := round_div (h * maxSize) w |}
    else {| width := w; height := h |}
  else
    if h >? maxSize
    then {| width := round_div (w * maxSize) h; height := maxSize |}
    else {| width := w; height := h |}.

Definition longer (s : Size) : Z := Z.max (width s) (height s).
Definition shorter (s : Size) : Z := Z.min (width s) (height s).

End Image.

(** ** JavaScript values and strings *)

Module Js.

(** A [Blob] (a [File] is one): its media type and its bytes. *)
Record Blob : Type := { blob_type : string; blob_bytes : list Byte.byte }.

(** The values that reach the object store and [URL.createObjectURL]. *)
Inductive value : Type :=
| VUndefined
| VNull
| VBool (b : bool)
| VNum (n : Z)
| VStr (s : string)
| VBlob (b : Blob).

(** [ToBoolean]: what [if (v)], [!v] and [v || w] test. *)
Definition truthy (v : value) : bool :=
  match v with
  | VUndefined | VNull => false
  | VBool b => b
  | VNum n => negb (n =? 0)
  | VStr s => negb (String.eqb s "")
  | VBlob _ => true
  end.

(** [v || null]. *)
Definition or_null (v : value) : value := if truthy v then v else VNull.

(** White space and line terminators below U+0100: TAB, LF, VT, FF, CR,
    SPACE and NO-BREAK SPACE; what [/\s/] and [String.prototype.trim]
    strip. *)
Definition is_ws (c : ascii) : bool :=
  match N_of_ascii c with
  | 9 | 10 | 11 | 12 | 13 | 32 | 160 => true
  | _ => false
  end%N.

Fixpoint trimStart (s : string) : string :=
  match s with
  | EmptyString => EmptyString
  | String c s' => if is_ws c then trimStart s' else s
  end.

Fixpoint trimEnd (s : string) : string :=
  match s with
  | EmptyString => EmptyString
  | String c s' =>
      match trimEnd s' with
      | EmptyString => if is_ws c then EmptyString else String c EmptyString
      | t => String c t
      end
  end.

(** [s.trim()]. *)
Definition trim (s : string) : string := trimStart (trimEnd s).

(** [s.replaceAll(pat, rep)] for a one-character pattern and a
    replacement without [$]. *)
Fixpoint replaceAll (pat : ascii) (rep : string) (s : string) : string :=
  match s with
  | EmptyString => EmptyString
  | String c s' =>
      if Ascii.eqb c pat
      then rep +:+ replaceAll pat rep s'
      else String c (replaceAll pat rep s')
  end.

Definition lower_char (c : ascii) : ascii :=
  let n := N_of_ascii c in
  if ((65 <=? n) && (n <=? 90)
      || (192 <=? n) && (n <=? 222) && negb (n =? 215))%N
  then ascii_of_N (n + 32)
  else c.

(** [s.toLowerCase()]. *)
Fixpoint toLowerCase (s : string) : string :=
  match s with
  | EmptyString => EmptyString
  | String c s' => String (lower_char c) (toLowerCase s')
  end.

(** [String(x)] of an environment entry: a string, or [undefined]. *)
Definition String_of (x : option string) : string :=
  match x with
  | Some s => s
  | None => "undefined"
  end.

(** [!x] of an environment entry: true for [undefined] and for the empty
    string. *)
Definition falsy (x : option string) : bool :=
  match x with
  | Some s => String.eqb s ""
  | None => true
  end.

End Js.

(** ** IndexedDB helpers: [idbSet], [idbGet], [idbDelete] *)

Module Idb.
Import Js.

(** Why a promise of the photo pipeline rejects. *)
Inductive error : Type :=
| StoreError    (* [indexedDB.open] or the transaction failed *)
| DecodeError   (* [img.onerror] *)
| TypeError.    (* [URL.createObjectURL] on something that is no Blob *)

(** The object store ["photos"] of the database ["portfolio-db"]. *)
Abbreviation store := (gmap string value).

(** Each helper opens the database and runs one transaction; [io] tells
    how its promise settles: it resolves ([true]: both go through) or it
    rejects ([false]: one of them fires [onerror]). A transaction that
    fails leaves the store as it was. The helpers register no [onabort]:
    a promise that never settles because the transaction aborts without an
    error event is the third fate of [Await] below. *)
Definition idbSet (io : bool) (key : string) (v : value) (db : store)
  : store * outcome error unit :=
  if io then (<[key := v]> db, Resolved tt) else (db, Rejected StoreError).

(** [req.result] of [objectStore.get(key)]: [undefined] for no entry. *)
Definition get_result (key : string) (db : store) : value :=
  match db !! key with
  | Some v => v
  | None => VUndefined
  end.

Definition idbGet (io : bool) (key : string) (db : store)
  : outcome error value :=
  if io then Resolved (or_null (get_result key db)) else Rejected StoreError.

Definition idbDelete (io : bool) (key : string) (db : store)
  : store * outcome error unit :=
  if io then (delete key db, Resolved tt) else (db, Rejected StoreError).

End Idb.

(** ** The photo pipeline of the [Portfolio] component *)

Module Photo.
Import Js Idb.

(** What [<img src>] shows: the bundled [defaultProfile] or an object URL;
    object URLs are numbered in the order the browser mints them. *)
Inductive url : Type :=
| DefaultProfile
| ObjectUrl (id : N).

(** The browser (object store, live object URLs, how many URLs were minted
    so far) and the component ([useState] and [useRef] cells). *)
Record World : Type := {
  db : gmap string value;
  live : gmap N Blob;
  minted : N;
  profilePicUrl : url;
  photoError : string;
  lastObjectUrlRef : option N
}.

Definition set_db (d : gmap string value) (w : World) : World :=
  {| db := d; live := live w; minted := minted w;
     profilePicUrl := profilePicUrl w; photoError := photoError w;
     lastObjectUrlRef := lastObjectUrlRef w |}.

Definition setPhotoError (msg : string) (w : World) : World :=
  {| db := db w; live := live w; minted := minted w;
     profilePicUrl := profilePicUrl w; photoError := msg;
     lastObjectUrlRef := lastObjectUrlRef w |}.

Definition setProfilePicUrl (u : url) (w : World) : World :=
  {| db := db w; live := live w; minted := minted w;
     profilePicUrl := u; photoError := photoError w;
     lastObjectUrlRef := lastObjectUrlRef w |}.

Definition set_lastObjectUrlRef (r : option N) (w : World) : World :=
  {| db := db w; live := live w; minted := minted w;
     profilePicUrl := profilePicUrl w; photoError := photoError w;
     lastObjectUrlRef := r |}.

(** [URL.createObjectURL(v)]: a fresh URL for a Blob, a [TypeError] for
    anything else. *)
Definition createObjectURL (v : value) (w : World)
  : World * outcome error N :=
  match v with
  | VBlob b =>
      ({| db := db w; live := <[minted w := b]> (live w);
          minted := (minted w + 1)%N;
          profilePicUrl := profilePicUrl w; photoError := photoError w;
          lastObjectUrlRef := lastObjectUrlRef w |},
       Resolved (minted w))
  | _ => (w, Rejected TypeError)
  end.

(** [URL.revokeObjectURL(u)]; revoking a dead URL does nothing. *)
Definition revokeObjectURL (u : N) (w : World) : World :=
  {| db := db w; live := delete u (live w); minted := minted w;
     profilePicUrl := profilePicUrl w; photoError := photoError w;
     lastObjectUrlRef := lastObjectUrlRef w |}.

(** What an object URL resolves to. *)
Definition resolve (u : N) (w : World) : option Blob := live w !! u.

(** A canvas: its size and the file whose image was drawn on it. *)
Record Canvas : Type := { canvas_size : Image.Size; drawn : Blob }.

Section Pipeline.

(** The browser's image decoder ([None]: [img.onerror]) and its JPEG
    encoder at quality 0.85 ([None]: the encoder gives up). *)
Variable decode : Blob -> option Image.Size.
Variable encode : Canvas -> option Blob.

Definition fileToImage (file : Blob) (w : World)
  : World * outcome error Image.Size :=
  match createObjectURL (VBlob file) w with
  | (w1, Resolved u) =>
      match decode file with
      | Some img => (revokeObjectURL u w1, Resolved img)
      | None => (revokeObjectURL u w1, Rejected DecodeError)
      end
  | (w1, Rejected e) => (w1, Rejected e)
  end.

Definition drawToCanvas (file : Blob) (img : Image.Size) (maxSize : Z)
  : Canvas :=
  {| canvas_size := Image.drawToCanvas img maxSize; drawn := file |}.

(** [canvas.toBlob] calls back with [null] for a canvas without pixels
    and when encoding fails; the promise resolves all the same. *)
Definition canvasToBlob (c : Canvas) : value :=
  if (Image.width (canvas_size c) =? 0) || (Image.height (canvas_size c) =? 0)
  then VNull
  else match encode c with
       | Some b => VBlob b
       | None => VNull
       end.

Definition compressFileToBlob (file : Blob) (w : World)
  : World * outcome error value :=
  match fileToImage file w with
  | (w1, Resolved img) =>
      (w1, Resolved (canvasToBlob (drawToCanvas file img 768)))
  | (w1, Rejected e) => (w1, Rejected e)
  end.

(** The three statements both the mount effect and [handlePhotoPick]
    run once they hold a new URL: revoke the URL in the ref, store the
    new one in the ref, show it. *)
Definition install (u : N) (w : World) : World :=
  let w1 := match lastObjectUrlRef w with
            | Some old => revokeObjectURL old w
            | None => w
            end in
  setProfilePicUrl (ObjectUrl u) (set_lastObjectUrlRef (Some u) w1).

(** The body of the mount effect, from the moment [idbGet] settles. *)
Definition loadSavedPhoto (io : bool) (w : World) : World :=
  match idbGet io "profilePic" (db w) with
  | Resolved blob =>
      if truthy blob then
        match createObjectURL blob w with
        | (w1, Resolved u) => install u w1
        | (w1, Rejected _) => setPhotoError "Couldn't load saved photo." w1
        end
      else w
  | Rejected _ => setPhotoError "Couldn't load saved photo." w
  end.

(** The clean-up the mount effect returns. *)
Definition cleanup (w : World) : World :=
  match lastObjectUrlRef w with
  | Some u => revokeObjectURL u w
  | None => w
  end.

Definition save_failed : string :=
  "Failed to save image. Try another image (preferably under ~5MB).".

Definition handlePhotoPick (file : Blob) (io : bool) (w : World) : World :=
  let w0 := setPhotoError "" w in
  match compressFileToBlob file w0 with
  | (w1, Rejected _) => setPhotoError save_failed w1
  | (w1, Resolved blob) =>
      match idbSet io "profilePic" blob (db w1) with
      | (d, Rejected _) => setPhotoError save_failed (set_db d w1)
      | (d, Resolved _) =>
          match createObjectURL blob (set_db d w1) with
          | (w2, Rejected _) => setPhotoError save_failed w2
          | (w2, Resolved u) => install u w2
          end
      end
  end.

Definition removePhoto (io : bool) (w : World) : World :=
  let w1 := set_db (fst (idbDelete io "profilePic" (db w))) w in
  let w2 := match lastObjectUrlRef w1 with
            | Some u => set_lastObjectUrlRef None (revokeObjectURL u w1)
            | None => w1
            end in
  setProfilePicUrl DefaultProfile w2.

(** What happens to the controller during its life; [io] is the fate of
    the store access the step makes. *)
Inductive event : Type :=
| MountLoad (io : bool)
| Upload (file : Blob) (io : bool)
| Remove (io : bool)
| Teardown.

Definition step (e : event) (w : World) : World :=
  match e with
  | MountLoad io => loadSavedPhoto io w
  | Upload file io => handlePhotoPick file io w
  | Remove io => removePhoto io w
  | Teardown => cleanup w
  end.

Definition run (es : list event) (w : World) : World :=
  foldl (fun w e => step e w) w es.

End Pipeline.

(** The page as it is first rendered over a given object store. *)
Definition mounted (d : gmap string value) (n : N) : World :=
  {| db := d; live := ∅; minted := n; profilePicUrl := DefaultProfile;
     photoError := ""; lastObjectUrlRef := None |}.

End Photo.

(** ** The contact backend

    The requests of the model are those that reach the limiter: they have
    passed [helmet], the CORS check and the JSON body parser, which run
    before it and do not touch the limiter, the validation or the mail. *)

Module Server.
Import Js.

(** *** Start-up: the constants read from [process.env] *)

Record Config : Type := {
  PORT : string;
  NODE_ENV : string;
  CORS_ORIGINS : string;
  SMTP_HOST : string;
  SMTP_PORT : string;
  SMTP_SECURE : option string;
  SMTP_USER : string;
  SMTP_PASS : string;
  MAIL_TO : string;
  MAIL_FROM : string
}.

(** The process after the top-level code has run: gone with an exit code,
    or listening with its configuration. *)
Inductive process : Type :=
| Exited (code : Z)
| Listening (cfg : Config).

(** The top level of the backend: the start-up check, which ends the
    process with [process.exit(1)], and, last in the file, [app.listen(PORT)].
    [listen port] is the fate of that call: [true] when the server gets
    bound to the port, [false] when it does not (the text is no valid port,
    or the port cannot be bound), which ends the process with an uncaught
    error and exit code 1. The default of [PORT] is the number 4000 in the
    source; here its decimal text. *)
Definition startup (listen : string -> bool) (env : gmap string string)
  : process :=
  if falsy (env !! "SMTP_HOST") || falsy (env !! "SMTP_PORT")
     || falsy (env !! "SMTP_USER") || falsy (env !! "SMTP_PASS")
     || falsy (env !! "MAIL_TO") || falsy (env !! "MAIL_FROM")
  then Exited 1
  else
    let cfg :=
      {| PORT := default "4000" (env !! "PORT");
         NODE_ENV := default "development" (env !! "NODE_ENV");
         CORS_ORIGINS := default "http://localhost:3000" (env !! "CORS_ORIGINS");
         SMTP_HOST := default "" (env !! "SMTP_HOST");
         SMTP_PORT := default "" (env !! "SMTP_PORT");
         SMTP_SECURE := env !! "SMTP_SECURE";
         SMTP_USER := default "" (env !! "SMTP_USER");
         SMTP_PASS := default "" (env !! "SMTP_PASS");
         MAIL_TO := default "" (env !! "MAIL_TO");
         MAIL_FROM := default "" (env !! "MAIL_FROM") |} in
    if listen (PORT cfg) then Listening cfg else Exited 1.

(** The [secure] option given to [nodemailer.createTransport]. *)
Definition secure (cfg : Config) : bool :=
  String.eqb (toLowerCase (String_of (SMTP_SECURE cfg))) "true".

(** *** Requests and responses *)

Record Body : Type := {
  name : string;
  email : string;
  subject : string;
  message : string
}.

(** A request to [/api/contact]: the caller's identity (its address), the
    clock when it arrives, its JSON body. A field the body lacks behaves
    as the empty string in every check below. *)
Record Request : Type := { ip : string; now : Z; body : Body }.

(** An entry of [errors.array()]. *)
Record FieldError : Type := {
  value : string;
  msg : string;
  path : string;
  location : string
}.

Inductive json : Type :=
| JMessage (ok : bool) (message : string)          (* { ok, message } *)
| JErrors (ok : bool) (errors : list FieldError)   (* { ok, errors } *)
| JText (s : string).                              (* a plain text body *)

Record Response : Type := { status : Z; payload : json }.

(** A middleware either calls [next()] or ends the request. *)
Inductive stage (A : Type) : Type :=
| Next (a : A)
| Respond (r : Response).
Arguments Next {A} a.
Arguments Respond {A} r.

(** *** Rate limiter *)

Record Client : Type := { totalHits : Z; resetTime : Z }.

Definition windowMs : Z := 60 * 1000.
Definition limit : Z := 10.

Definition resetClient (t : Z) : Client :=
  {| totalHits := 0; resetTime := t + windowMs |}.

(** Modelled from the spec: the counter of the rate limiter, which the
    repository takes from the express-rate-limit package and only
    configures ([windowMs], [limit]). A caller identity gets its record on
    its first request; the record holds the hits of the current window
    and the time the window ends; a request that arrives when the window
    is over starts a new one; every request counts, also a rejected
    one. *)
Definition increment (t : Z) (key : string) (hits : gmap string Client)
  : gmap string Client * Client :=
  let client := match hits !! key with
                | Some c => if resetTime c <=? t then resetClient t else c
                | None => resetClient t
                end in
  let client' := {| totalHits := totalHits client + 1;
                    resetTime := resetTime client |} in
  (<[key := client']> hits, client').

Definition too_many : Response :=
  {| status := 429;
     payload := JText "Too many requests, please try again later." |}.

(** Modelled from the spec: the limiter as a middleware; beyond [limit]
    hits in the window it answers itself and does not call [next()]. *)
Definition rateLimit (req : Request) (hits : gmap string Client)
  : gmap string Client * stage unit :=
  let '(hits', client) := increment (now req) (ip req) hits in
  (hits', if totalHits client >? limit then Respond too_many else Next tt).

(** *** Helpers *)

Definition escapeHtml (str : string) : string :=
  replaceAll "'" "&#039;"
    (replaceAll "034" "&quot;"
       (replaceAll ">" "&gt;"
          (replaceAll "<" "&lt;"
             (replaceAll "&" "&amp;" str)))).

Definition nl : string := String "010" EmptyString.
Definition dq : string := String "034" EmptyString.

(** *** The route [POST /api/contact] *)

(** The subject line of the mail: the template
    [Portfolio Contact: ${subject}] behind its mailbox emoji. *)
Inductive subject_line : Type :=
| PortfolioContact (subject : string).

(** The argument of [transporter.sendMail]. *)
Record MailOptions : Type := {
  from : string;
  to : string;
  replyTo : string;
  mail_subject : subject_line;
  text : string;
  html : string
}.

(** [isLength({ min, max })] on a string without surrogate pairs. *)
Definition isLength (min max : nat) (s : string) : bool :=
  ((min <=? String.length s) && (String.length s <=? max))%nat.

Definition field_error (v m p : string) : FieldError :=
  {| value := v; msg := m; path := p; location := "body" |}.

Definition text_of (b : Body) : string :=
  trim (nl +:+ "New message from your portfolio:" +:+ nl
        +:+ nl
        +:+ "Name: " +:+ name b +:+ nl
        +:+ "Email: " +:+ email b +:+ nl
        +:+ "Subject: " +:+ subject b +:+ nl
        +:+ nl
        +:+ "Message:" +:+ nl
        +:+ message b +:+ nl).

Definition html_of (b : Body) : string :=
  trim (nl +:+ "<div style=" +:+ dq
        +:+ "font-family:system-ui,-apple-system,Segoe UI,Roboto,Arial,sans-serif"
        +:+ dq +:+ ">" +:+ nl
        +:+ "  <h2>New portfolio contact</h2>" +:+ nl
        +:+ "  <p><strong>Name:</strong> " +:+ escapeHtml (name b) +:+ "</p>" +:+ nl
        +:+ "  <p><strong>Email:</strong> " +:+ escapeHtml (email b) +:+ "</p>" +:+ nl
        +:+ "  <p><strong>Subject:</strong> " +:+ escapeHtml (subject b) +:+ "</p>" +:+ nl
        +:+ "  <p><strong>Message:</strong></p>" +:+ nl
        +:+ "  <pre style=" +:+ dq
        +:+ "white-space:pre-wrap;font-family:inherit" +:+ dq +:+ ">"
        +:+ escapeHtml (message b) +:+ "</pre>" +:+ nl
        +:+ "</div>").

Section Backend.

(** What the route takes from its libraries: the e-mail syntax check
    and the e-mail canonicalisation of express-validator, and the fate
    of a send on the SMTP transport ([true]: the promise resolves). *)
Variable isEmail : string -> bool.
Variable normalizeEmail : string -> string.
Variable sendMail : MailOptions -> bool.

(** The four validation chains. Each one sanitises its field of
    [req.body] in place and adds at most one error. *)
Definition check_name (b : Body) : Body * list FieldError :=
  let v := trim (name b) in
  ({| name := v; email := email b; subject := subject b;
      message := message b |},
   if isLength 2 100 v then [] else [field_error v "Name is required" "name"]).

Definition check_email (b : Body) : Body * list FieldError :=
  let v := email b in
  ({| name := name b; email := normalizeEmail v; subject := subject b;
      message := message b |},
   if isEmail v then [] else [field_error v "Valid email is required" "email"]).

Definition check_subject (b : Body) : Body * list FieldError :=
  let v := trim (subject b) in
  ({| name := name b; email := email b; subject := v;
      message := message b |},
   if isLength 2 150 v then [] else [field_error v "Subject is required" "subject"]).

Definition check_message (b : Body) : Body * list FieldError :=
  let v := trim (message b) in
  ({| name := name b; email := email b; subject := subject b;
      message := v |},
   if isLength 5 5000 v then [] else [field_error v "Message is required" "message"]).

(** [req.body] once the four chains have run. *)
Definition sanitized (b : Body) : Body :=
  {| name := trim (name b); email := normalizeEmail (email b);
     subject := trim (subject b); message := trim (message b) |}.

(** The chains in the order the route lists them: the body as the
    handler reads it, and [validationResult(req).array()]. *)
Definition validate (b : Body) : Body * list FieldError :=
  let '(b1, e1) := check_name b in
  let '(b2, e2) := check_email b1 in
  let '(b3, e3) := check_subject b2 in
  let '(b4, e4) := check_message b3 in
  (b4, e1 ++ e2 ++ e3 ++ e4).

Definition mail_of (cfg : Config) (b : Body) : MailOptions :=
  {| from := MAIL_FROM cfg;
     to := MAIL_TO cfg;
     replyTo := email b;
     mail_subject := PortfolioContact (subject b);
     text := text_of b;
     html := html_of b |}.

(** The handler: the calls it makes to [transporter.sendMail], in
    order, and its response. *)
Definition handler (cfg : Config) (b : Body) (errors : list FieldError)
  : list MailOptions * Response :=
  match errors with
  | _ :: _ => ([], {| status := 400; payload := JErrors false errors |})
  | [] =>
      let m := mail_of cfg b in
      if sendMail m
      then ([m], {| status := 200; payload := JMessage true "Sent" |})
      else ([m], {| status := 500;
                    payload := JMessage false "Failed to send email" |})
  end.

Definition route (cfg : Config) (b : Body) : list MailOptions * Response :=
  let '(b', errors) := validate b in handler cfg b' errors.

(** The server between two requests: the limiter's records and every
    [sendMail] call made so far. *)
Record State : Type := {
  hits : gmap string Client;
  outbox : list MailOptions
}.

(** One request through [app.use("/api/contact", rateLimit(...))] and
    then the route. *)
Definition contact (cfg : Config) (st : State) (req : Request)
  : State * Response :=
  match rateLimit req (hits st) with
  | (hits', Respond r) => ({| hits := hits'; outbox := outbox st |}, r)
  | (hits', Next _) =>
      let '(calls, r) := route cfg (body req) in
      ({| hits := hits'; outbox := outbox st ++ calls |}, r)
  end.

(** A request sent to a process: only a listening one answers. *)
Definition accept (p : process) (st : State) (req : Request)
  : option (State * Response) :=
  match p with
  | Exited _ => None
  | Listening cfg => Some (contact cfg st req)
  end.

(** Requests served one after the other. *)
Fixpoint serve (cfg : Config) (st : State) (reqs : list Request)
  : State * list Response :=
  match reqs with
  | [] => (st, [])
  | req :: reqs' =>
      let '(st1, r) := contact cfg st req in
      let '(st2, rs) := serve cfg st1 reqs' in
      (st2, r :: rs)
  end.

End Backend.

End Server.

(** ** The vocabulary of the specification *)

Module Spec.
Import Js Server.

(** The HTML entity the specification gives each of the five characters;
    any other character stands for itself. *)
Definition entity (c : ascii) : string :=
  if Ascii.eqb c "&" then "&amp;"
  else if Ascii.eqb c "<" then "&lt;"
  else if Ascii.eqb c ">" then "&gt;"
  else if Ascii.eqb c "034" then "&quot;"
  else if Ascii.eqb c "'" then "&#039;"
  else String c EmptyString.

(** A text with every character replaced by its entity. *)
Fixpoint escaped (s : string) : string :=
  match s with
  | EmptyString => EmptyString
  | String c s' => entity c +:+ escaped s'
  end.

(** The characters that open or close a tag or an attribute value. *)
Definition is_markup (c : ascii) : bool :=
  Ascii.eqb c "<" || Ascii.eqb c ">" || Ascii.eqb c "034" || Ascii.eqb c "'".

Fixpoint count (p : ascii -> bool) (s : string) : nat :=
  match s with
  | EmptyString => O
  | String c s' => ((if p c then 1 else 0) + count p s')%nat
  end.

(** The fixed markup of the mail's HTML body, around four texts. *)
Definition html_frame (n e s m : string) : string :=
  "<div style=" +:+ dq
  +:+ "font-family:system-ui,-apple-system,Segoe UI,Roboto,Arial,sans-serif"
  +:+ dq +:+ ">" +:+ nl
  +:+ "  <h2>New portfolio contact</h2>" +:+ nl
  +:+ "  <p><strong>Name:</strong> " +:+ n +:+ "</p>" +:+ nl
  +:+ "  <p><strong>Email:</strong> " +:+ e +:+ "</p>" +:+ nl
  +:+ "  <p><strong>Subject:</strong> " +:+ s +:+ "</p>" +:+ nl
  +:+ "  <p><strong>Message:</strong></p>" +:+ nl
  +:+ "  <pre style=" +:+ dq
  +:+ "white-space:pre-wrap;font-family:inherit" +:+ dq +:+ ">"
  +:+ m +:+ "</pre>" +:+ nl
  +:+ "</div>".

(** The four fields of a contact message and their constraints. *)
Definition fields : list string := ["name"; "email"; "subject"; "message"].

Definition chars_after_trim (lo hi : nat) (s : string) : bool :=
  ((lo <=? String.length (trim s)) && (String.length (trim s) <=? hi))%nat.

Definition valid (isEmail : string -> bool) (b : Body) (field : string) : bool :=
  if String.eqb field "name" then chars_after_trim 2 100 (name b)
  else if String.eqb field "email" then isEmail (email b)
  else if String.eqb field "subject" then chars_after_trim 2 150 (subject b)
  else if String.eqb field "message" then chars_after_trim 5 5000 (message b)
  else true.

Definition violated (isEmail : string -> bool) (b : Body) : list string :=
  List.filter (fun f => negb (valid isEmail b f)) fields.

(** How many of the requests come from the identity [k]. *)
Fixpoint arrivals (k : string) (reqs : list Request) : Z :=
  match reqs with
  | [] => 0
  | q :: reqs' => (if String.eqb (ip q) k then 1 else 0) + arrivals k reqs'
  end.

(** The configuration values the specification calls required: host,
    port, secure flag, credentials, sender and recipient. *)
Definition required : list string :=
  ["SMTP_HOST"; "SMTP_PORT"; "SMTP_SECURE"; "SMTP_USER"; "SMTP_PASS";
   "MAIL_FROM"; "MAIL_TO"].

(** The ones the start-up code tests. *)
Definition checked : list string :=
  ["SMTP_HOST"; "SMTP_PORT"; "SMTP_USER"; "SMTP_PASS"; "MAIL_TO"; "MAIL_FROM"].

End Spec.

(** ** Invariants used in the proofs *)

Module Inv.
Import Js Server Photo.

(** A string that is not empty and does not end in white space. *)
Definition solid (s : string) : Prop := trimEnd s = s /\ s <> "".

(** The bookkeeping invariant of object URLs, on the three cells it is
    about: every live URL is the one held in the ref, and the ref holds a
    URL that was minted. *)
Definition tidy3 (l : gmap N Blob) (m : N) (r : option N) : Prop :=
  (forall u, is_Some (l !! u) -> r = Some u)
  /\ (forall u, r = Some u -> (u < m)%N).

Definition tidy (w : World) : Prop :=
  tidy3 (live w) (minted w) (lastObjectUrlRef w).

(** A URL that was minted and is no longer the one in the ref. *)
Definition retired (u : N) (w : World) : Prop :=
  (u < minted w)%N /\ lastObjectUrlRef w <> Some u.

(** One more URL minted, nothing else changed. *)
Definition bump (w : World) : World :=
  {| db := db w; live := live w; minted := (minted w + 1)%N;
     profilePicUrl := profilePicUrl w; photoError := photoError w;
     lastObjectUrlRef := lastObjectUrlRef w |}.

(** The hits of the caller [k] that the limiter holds for the interval of
    [windowMs] from [t0]: those of its record, unless the record's window
    was over by [t0]. *)
Definition window_hits (k : string) (t0 : Z) (h : gmap string Client) : Z :=
  match h !! k with
  | Some c => if resetTime c <=? t0 then 0 else totalHits c
  | None => 0
  end.

(** The record of [k], if any, is over by [t0] or lasts through the
    interval. *)
Definition settled (k : string) (t0 : Z) (h : gmap string Client) : Prop :=
  forall c, h !! k = Some c -> resetTime c <= t0 \/ t0 + windowMs <= resetTime c.

End Inv.

(** ** Sample data for the worked cases *)

Module Scenario.
Import Js.

Definition old_photo : Blob :=
  {| blob_type := "image/jpeg"; blob_bytes := [Byte.x01; Byte.x02] |}.

(** A picture one pixel wide and 2000 pixels high. *)
Definition thin_file : Blob :=
  {| blob_type := "image/png"; blob_bytes := [Byte.x03] |}.

(** A decoder that knows the two files above. *)
Definition decode (f : Blob) : option Image.Size :=
  if String.eqb (blob_type f) "image/png"
  then Some {| Image.width := 1; Image.height := 2000 |}
  else if String.eqb (blob_type f) "image/jpeg"
       then Some {| Image.width := 640; Image.height := 480 |}
       else None.

(** An encoder that always succeeds on a canvas with pixels. *)
Definition encode (c : Photo.Canvas) : option Blob :=
  Some {| blob_type := "image/jpeg"; blob_bytes := blob_bytes (Photo.drawn c) |}.

(** The page once it has loaded a stored photo and shows it. *)
Definition shown_photo : Photo.World :=
  Photo.loadSavedPhoto true
    (Photo.mounted (<["profilePic" := VBlob old_photo]> ∅) 0).

(** An environment with every variable the start-up code tests, and no
    [SMTP_SECURE]. *)
Definition env_six : gmap string string :=
  <["SMTP_HOST" := "smtp.example.com"]>
    (<["SMTP_PORT" := "587"]>
       (<["SMTP_USER" := "mailer"]>
          (<["SMTP_PASS" := "secret"]>
             (<["MAIL_TO" := "owner@example.com"]>
                (<["MAIL_FROM" := "site@example.com"]> ∅))))).

(** A machine on which port 4000, and no other text, can be bound. *)
Definition listen (port : string) : bool := String.eqb port "4000".

Definition cfg : Server.Config :=
  {| Server.PORT := "4000"; Server.NODE_ENV := "development";
     Server.CORS_ORIGINS := "http://localhost:3000";
     Server.SMTP_HOST := "smtp.example.com"; Server.SMTP_PORT := "587";
     Server.SMTP_SECURE := None; Server.SMTP_USER := "mailer";
     Server.SMTP_PASS := "secret"; Server.MAIL_TO := "owner@example.com";
     Server.MAIL_FROM := "site@example.com" |}.

(** A stand-in for the e-mail syntax check: something before an [@] and
    something after it. *)
Fixpoint after_at (s : string) : option string :=
  match s with
  | EmptyString => None
  | String c s' => if Ascii.eqb c "@" then Some s' else after_at s'
  end.

Definition isEmail (s : string) : bool :=
  match s, after_at s with
  | String c _, Some d => negb (Ascii.eqb c "@") && negb (String.eqb d "")
  | _, _ => false
  end.

Definition normalizeEmail (s : string) : string := toLowerCase s.

(** A transport on which every send succeeds. *)
Definition sendMail (m : Server.MailOptions) : bool := true.

Definition idle : Server.State :=
  {| Server.hits := ∅; Server.outbox := [] |}.

Definition hello : Server.Body :=
  {| Server.name := "Al"; Server.email := "a@b.com";
     Server.subject := "Hi"; Server.message := "hello!" |}.

Definition bad_email : Server.Body :=
  {| Server.name := "Al"; Server.email := "not-an-email";
     Server.subject := "Hi"; Server.message := "hello!" |}.

Definition from_caller (t : Z) (b : Server.Body) : Server.Request :=
  {| Server.ip := "203.0.113.7"; Server.now := t; Server.body := b |}.

(** A valid body whose e-mail has capital letters. *)
Definition capitals : Server.Body :=
  {| Server.name := "Al"; Server.email := "Al@B.com";
     Server.subject := "Hi"; Server.message := "hello!" |}.

(** Ten submissions of one caller, two seconds apart. *)
Definition ten : list Server.Request :=
  map (fun i => from_caller (2000 * i) hello) [0; 1; 2; 3; 4; 5; 6; 7; 8; 9].

End Scenario.

(** ** The CORS allow-list of the backend *)

Module Cors.
Import Js Server.

(** [s.split(sep)] for a one-character separator: the pieces between the
    separators, one more than there are separators. *)
Fixpoint split (sep : ascii) (s : string) : list string :=
  match s with
  | EmptyString => [EmptyString]
  | String c s' =>
      if Ascii.eqb c sep then EmptyString :: split sep s'
      else match split sep s' with
           | x :: xs => String c x :: xs
           | [] => [String c EmptyString]
           end
  end.

(** [const allowed = CORS_ORIGINS.split(",").map((s) => s.trim())]. *)
Definition allowed (cfg : Config) : list string :=
  map trim (split "," (CORS_ORIGINS cfg)).

(** [allowed.includes(origin)]. *)
Definition includes (l : list string) (origin : string) : bool :=
  existsb (String.eqb origin) l.

(** The [origin] function given to [cors]: [true] where it calls
    [cb(null, true)], [false] where it calls [cb(new Error(...), false)].
    A request without [Origin] header has [origin] undefined. *)
Definition origin_ok (cfg : Config) (origin : option string) : bool :=
  match origin with
  | None => true
  | Some o => String.eqb o "" || includes (allowed cfg) o
  end.

End Cors.

(** ** The contact form of the [Portfolio] component *)

Module Client.
Import Js Server.

(** The [useState] cells of the form; [formData] is a JavaScript object. *)
Record Form : Type := {
  formData : gmap string string;
  isSubmitting : bool;
  submitStatus : string
}.

(** [{ name: "", email: "", subject: "", message: "" }]. *)
Definition blank : gmap string string :=
  <["name" := ""]> (<["email" := ""]> (<["subject" := ""]> (<["message" := ""]> ∅))).

Definition initial : Form :=
  {| formData := blank; isSubmitting := false; submitStatus := "" |}.

(** [handleInputChange] for an input of the given [name] and [value]. *)
Definition handleInputChange (name value : string) (f : Form) : Form :=
  {| formData := <[name := value]> (formData f);
     isSubmitting := isSubmitting f;
     submitStatus := submitStatus f |}.

(** The body the backend reads out of [JSON.stringify(formData)]. *)
Definition body_of (d : gmap string string) : Body :=
  {| name := default "" (d !! "name");
     email := default "" (d !! "email");
     subject := default "" (d !! "subject");
     message := default "" (d !! "message") |}.

(** How [fetch] settles: it rejects, or it resolves with a response. *)
Inductive fetched : Type :=
| NetworkError
| Replied (r : Response).

(** [res.ok]: a status from 200 to 299. *)
Definition res_ok (r : Response) : bool :=
  (200 <=? status r) && (status r <=? 299).

(** [(await res.json()).ok]; [None] where [res.json()] throws because the
    body is no JSON text. *)
Definition data_ok (r : Response) : option bool :=
  match payload r with
  | JMessage ok _ => Some ok
  | JErrors ok _ => Some ok
  | JText _ => None
  end.

(** [handleSubmit] up to its [await fetch(...)]. *)
Definition submit_start (f : Form) : Form :=
  {| formData := formData f; isSubmitting := true; submitStatus := "" |}.

(** [handleSubmit] from the moment [fetch] settles. *)
Definition submit_end (net : fetched) (f : Form) : Form :=
  let succeeded :=
    match net with
    | NetworkError => false
    | Replied r =>
        match data_ok r with
        | Some ok => negb (negb (res_ok r) || negb ok)
        | None => false
        end
    end in
  if succeeded
  then {| formData := blank; isSubmitting := false; submitStatus := "success" |}
  else {| formData := formData f; isSubmitting := false; submitStatus := "error" |}.

Definition handleSubmit (net : fetched) (f : Form) : Form :=
  submit_end net (submit_start f).

End Client.

(** ** Navigation: the scroll spy and the menu *)

Module Nav.

(** The ids the scroll spy walks through, in its order. *)
Definition sections : list string :=
  ["hero"; "about"; "experience"; "projects"; "skills"; "education";
   "certifications"; "contact"].

(** [{ id, label }] of the navigation bar. *)
Definition navItems : list (string * string) :=
  [("hero", "Home"); ("about", "About"); ("experience", "Experience");
   ("projects", "Projects"); ("skills", "Skills"); ("education", "Education");
   ("contact", "Contact")].

(** [offsetTop] and [offsetHeight] of an element, in whole pixels. *)
Record Box : Type := { offsetTop : Z; offsetHeight : Z }.

(** [y >= offsetTop && y < offsetTop + offsetHeight]. *)
Definition inside (y : Z) (el : Box) : bool :=
  (y >=? offsetTop el) && (y <? offsetTop el + offsetHeight el).

(** The loop of [onScroll] over the ids: the first id whose element exists
    and holds [y]. The document is the map [document.getElementById]
    reads. *)
Fixpoint spy (doc : gmap string Box) (y : Z) (ids : list string) : option string :=
  match ids with
  | [] => None
  | id :: rest =>
      match doc !! id with
      | None => spy doc y rest
      | Some el => if inside y el then Some id else spy doc y rest
      end
  end.

(** [onScroll]: the new [activeSection]. [scrollY] is the whole part of
    [window.scrollY]; against whole-pixel offsets the comparisons come out
    the same. *)
Definition onScroll (doc : gmap string Box) (scrollY : Z) (activeSection : string)
  : string :=
  match spy doc (scrollY + 100) sections with
  | Some id => id
  | None => activeSection
  end.

(** The nav items drawn as active: [activeSection === item.id]. *)
Definition highlighted (activeSection : string) : list (string * string) :=
  List.filter (fun item => String.eqb activeSection (fst item)) navItems.

(** [activeSection] after a run of scroll events, each with the document
    as it is laid out then and the scroll position. *)
Definition scrolls (events : list (gmap string Box * Z)) (activeSection : string)
  : string :=
  foldl (fun a e => onScroll (fst e) (snd e) a) activeSection events.

End Nav.

(** ** Store promises that never settle *)

Module Await.
Import Js Idb Photo.

(** How the promise of [idbSet] or [idbDelete] ends. Both settle only from
    [tx.oncomplete] and [tx.onerror] (or from a failed [openDB]); a
    transaction that aborts without an error event, as on a failed commit,
    fires neither: the promise stays pending for ever, the store is as it
    was, and the code after the [await] never runs. *)
Inductive fate : Type :=
| Resolves
| Rejects
| NeverSettles.

(** [idbSet] and [idbDelete] under every fate; [None] is the promise that
    stays pending. *)
Definition idbSet (f : fate) (key : string) (v : value) (db : store)
  : store * option (outcome error unit) :=
  match f with
  | Resolves => (<[key := v]> db, Some (Resolved tt))
  | Rejects => (db, Some (Rejected StoreError))
  | NeverSettles => (db, None)
  end.

Definition idbDelete (f : fate) (key : string) (db : store)
  : store * option (outcome error unit) :=
  match f with
  | Resolves => (delete key db, Some (Resolved tt))
  | Rejects => (db, Some (Rejected StoreError))
  | NeverSettles => (db, None)
  end.

(** [removePhoto]: the [catch {}] swallows a rejection; on a promise that
    stays pending the function never gets past its [await]. *)
Definition removePhoto (f : fate) (w : World) : World :=
  match idbDelete f "profilePic" (db w) with
  | (d, None) => set_db d w
  | (d, Some _) =>
      let w1 := set_db d w in
      let w2 := match lastObjectUrlRef w1 with
                | Some u => set_lastObjectUrlRef None (revokeObjectURL u w1)
                | None => w1
                end in
      setProfilePicUrl DefaultProfile w2
  end.

Section Pipeline.

Variable decode : Blob -> option Image.Size.
Variable encode : Canvas -> option Blob.

(** [handlePhotoPick]: on a promise of [idbSet] that stays pending the
    function stays suspended at [await idbSet(...)], after
    [setPhotoError("")] and the compression. *)
Definition handlePhotoPick (file : Blob) (f : fate) (w : World) : World :=
  let w0 := setPhotoError "" w in
  match compressFileToBlob decode encode file w0 with
  | (w1, Rejected _) => setPhotoError save_failed w1
  | (w1, Resolved blob) =>
      match idbSet f "profilePic" blob (db w1) with
      | (d, None) => set_db d w1
      | (d, Some (Rejected _)) => setPhotoError save_failed (set_db d w1)
      | (d, Some (Resolved _)) =>
          match createObjectURL blob (set_db d w1) with
          | (w2, Rejected _) => setPhotoError save_failed w2
          | (w2, Resolved u) => install u w2
          end
      end
  end.

(** The life of the controller with every fate of its store writes. The
    promise of [idbGet] settles with its request, which ends in a success
    or an error event also when the transaction aborts. *)
Inductive event : Type :=
| MountLoad (io : bool)
| Upload (file : Blob) (f : fate)
| Remove (f : fate)
| Teardown.

Definition step (e : event) (w : World) : World :=
  match e with
  | MountLoad io => loadSavedPhoto io w
  | Upload file f => handlePhotoPick file f w
  | Remove f => removePhoto f w
  | Teardown => cleanup w
  end.

Definition run (es : list event) (w : World) : World :=
  foldl (fun w e => step e w) w es.

End Pipeline.

End Await.

(** ** More invariants used in the proofs *)

Module Shape.
Import Js Server Photo.

(** Every character of the string is white space. *)
Fixpoint blank (s : string) : bool :=
  match s with
  | EmptyString => true
  | String c s' => is_ws c && blank s'
  end.

(** The picture on display and the object URLs agree: the bundled picture
    with no URL held or alive, or a URL that is held, alive and alone. *)
Definition shown (w : World) : Prop :=
  (profilePicUrl w = DefaultProfile /\ lastObjectUrlRef w = None /\ live w = ∅)
  \/ (exists u b, profilePicUrl w = ObjectUrl u /\ lastObjectUrlRef w = Some u
                  /\ live w = <[u := b]> ∅).

(** The letter [c] in either case. *)
Definition letter (lower upper c : ascii) : Prop := c = lower \/ c = upper.

(** A response after which a mail was handed to the transport. *)
Definition mailed (r : Response) : bool :=
  (status r =? 200) || (status r =? 500).

(** [xs.join(sep)]. *)
Fixpoint join (sep : string) (xs : list string) : string :=
  match xs with
  | [] => EmptyString
  | [x] => x
  | x :: rest => x +:+ sep +:+ join sep rest
  end.

(** The plain text of the mail around four texts. *)
Definition text_frame (n e s m : string) : string :=
  "New message from your portfolio:" +:+ nl
  +:+ nl
  +:+ "Name: " +:+ n +:+ nl
  +:+ "Email: " +:+ e +:+ nl
  +:+ "Subject: " +:+ s +:+ nl
  +:+ nl
  +:+ "Message:" +:+ nl
  +:+ m.

(** The string holds no comma. *)
Definition comma_free (s : string) : Prop :=
  Spec.count (fun c => Ascii.eqb c ",") s = O.

End Shape.

(** * Properties *)

(** ** Image normalisation *)

Section ImageFacts.
Import Image.

Lemma round_div_bounds a b :
  0 <= a -> 0 < b ->
  2 * b * round_div a b <= 2 * a + b < 2 * b * round_div a b + 2 * b.
Proof.
  intros Ha Hb. unfold round_div.
  pose proof (Z.div_mod (2 * a + b) (2 * b) ltac:(lia)) as Hdm.
  pose proof (Z.mod_pos_bound (2 * a + b) (2 * b) ltac:(lia)) as Hm.
  lia.
Qed.

Lemma round_div_le a b m :
  0 <= a -> 0 < b -> 0 <= m -> a <= b * m -> round_div a b <= m.
Proof.
  intros Ha Hb Hm Hle.
  pose proof (round_div_bounds a b Ha Hb) as [Hlo _].
  nia.
Qed.

Lemma round_div_error a b :
  0 <= a -> 0 < b -> 2 * Z.abs (round_div a b * b - a) <= b.
Proof.
  intros Ha Hb.
  pose proof (round_div_bounds a b Ha Hb) as [Hlo Hhi].
  set (r := round_div a b) in *.
  assert (2 * (r * b - a) <= b) by lia.
  assert (2 * (a - r * b) <= b) by lia.
  lia.
Qed.

End ImageFacts.

(** C4. For an image of positive integer width and height, the size
    [drawToCanvas] computes with [maxSize = 768] has its longer edge at most
    768; it is the input size when both input edges are at most 768;
    otherwise the longer edge becomes 768 and the shorter edge becomes
    [Math.round(shorter * 768 / longer)], so the aspect ratio differs from
    the input's by at most the half unit of that rounding. *)
Theorem drawToCanvas_bounded_aspect (w h : Z) :
  0 < w -> 0 < h ->
  let img := {| Image.width := w; Image.height := h |} in
  let out := Image.drawToCanvas img 768 in
  Image.longer out <= 768
  /\ (w <= 768 -> h <= 768 -> out = img)
  /\ (768 < Image.longer img ->
      Image.longer out = 768
      /\ Image.shorter out
         = Image.round_div (Image.shorter img * 768) (Image.longer img))
  /\ 2 * Z.abs (Image.width out * h - Image.height out * w)
     <= Image.longer img.
Proof.
  intros Hw Hh img out. subst img out.
  unfold Image.drawToCanvas, Image.longer, Image.shorter. cbn [Image.width Image.height].
  destruct (Z.gtb_spec w h) as [Hwh | Hwh].
  - destruct (Z.gtb_spec w 768) as [Hbig | Hsmall]; cbn [Image.width Image.height].
    + pose proof (round_div_le (h * 768) w 768 ltac:(lia) Hw ltac:(lia) ltac:(lia)) as Hr.
      pose proof (round_div_error (h * 768) w ltac:(lia) Hw) as He.
      assert (0 <= Image.round_div (h * 768) w) as Hnn
        by (apply Z.div_pos; lia).
      repeat split.
      * lia.
      * intros. lia.
      * rewrite Z.max_l by lia. reflexivity.
      * rewrite Z.min_r by lia. rewrite (Z.min_r w h) by lia.
        rewrite (Z.max_l w h) by lia. reflexivity.
      * rewrite (Z.max_l w h) by lia.
        replace (768 * h - Image.round_div (h * 768) w * w)
          with (- (Image.round_div (h * 768) w * w - h * 768)) by lia.
        rewrite Z.abs_opp. exact He.
    + repeat split; lia.
  - destruct (Z.gtb_spec h 768) as [Hbig | Hsmall]; cbn [Image.width Image.height].
    + pose proof (round_div_le (w * 768) h 768 ltac:(lia) Hh ltac:(lia) ltac:(lia)) as Hr.
      pose proof (round_div_error (w * 768) h ltac:(lia) Hh) as He.
      repeat split.
      * lia.
      * intros. lia.
      * rewrite Z.max_r by lia. reflexivity.
      * rewrite Z.min_l by lia. rewrite (Z.min_l w h) by lia.
        rewrite (Z.max_r w h) by lia. reflexivity.
      * rewrite (Z.max_r w h) by lia.
        replace (Image.round_div (w * 768) h * h - 768 * w)
          with (Image.round_div (w * 768) h * h - w * 768) by lia.
        exact He.
    + repeat split; lia.
Qed.

Lemma drawToCanvas_bounded_aspect_witness :
  let img := {| Image.width := 1024; Image.height := 683 |} in
  let out := Image.drawToCanvas img 768 in
  Image.longer out <= 768
  /\ (1024 <= 768 -> 683 <= 768 -> out = img)
  /\ (768 < Image.longer img ->
      Image.longer out = 768
      /\ Image.shorter out
         = Image.round_div (Image.shorter img * 768) (Image.longer img))
  /\ 2 * Z.abs (Image.width out * 683 - Image.height out * 1024)
     <= Image.longer img.
Proof. apply (drawToCanvas_bounded_aspect 1024 683); lia. Defined.

(** ** The blob store *)

Section IdbFacts.
Import Js Idb.

Lemma falsy_or_null v : truthy v = false -> or_null v = VNull.
Proof. unfold or_null. intros ->. reflexivity. Qed.

Lemma get_result_insert key v (db : store) :
  get_result key (<[key := v]> db) = v.
Proof. unfold get_result. by rewrite lookup_insert_eq. Qed.

Lemma get_result_delete key (db : store) :
  get_result key (delete key db) = VUndefined.
Proof. unfold get_result. by rewrite lookup_delete_eq. Qed.

Lemma get_result_absent key (db : store) :
  db !! key = None -> get_result key db = VUndefined.
Proof. unfold get_result. by intros ->. Qed.

Lemma idbSet_resolved io key v (db db' : store) :
  idbSet io key v db = (db', Resolved tt) -> db' = <[key := v]> db.
Proof. unfold idbSet. destruct io; congruence. Qed.

Lemma idbDelete_resolved io key (db db' : store) :
  idbDelete io key db = (db', Resolved tt) -> db' = delete key db.
Proof. unfold idbDelete. destruct io; congruence. Qed.

End IdbFacts.

(** C8. For every key and Blob: when [idbSet key blob] resolves, a following
    [idbGet key] (whose own store access goes through) resolves to that same
    Blob, and [idbSet] does resolve on a store without fault; when
    [idbDelete key] resolves, a following [idbGet key] resolves to [null];
    [idbGet] of a key without entry resolves to [null], and [idbGet] rejects
    only on a fault of the store, whatever the key; [idbDelete] of a key
    without entry resolves and leaves the store as it was. *)
Theorem idb_put_get_delete (key : string) (b : Js.Blob) (db : gmap string Js.value) :
  (forall io db', Idb.idbSet io key (Js.VBlob b) db = (db', Resolved tt) ->
                  Idb.idbGet true key db' = Resolved (Js.VBlob b))
  /\ Idb.idbSet true key (Js.VBlob b) db = (<[key := Js.VBlob b]> db, Resolved tt)
  /\ (forall io db', Idb.idbDelete io key db = (db', Resolved tt) ->
                     Idb.idbGet true key db' = Resolved Js.VNull)
  /\ (db !! key = None -> Idb.idbGet true key db = Resolved Js.VNull)
  /\ (forall io e, Idb.idbGet io key db = Rejected e ->
                   io = false /\ forall k' db', Idb.idbGet io k' db' = Rejected e)
  /\ (db !! key = None -> Idb.idbDelete true key db = (db, Resolved tt)).
Proof.
  repeat split.
  - intros io db' H. apply idbSet_resolved in H as ->.
    unfold Idb.idbGet. by rewrite get_result_insert.
  - intros io db' H. apply idbDelete_resolved in H as ->.
    unfold Idb.idbGet. by rewrite get_result_delete.
  - intros H. unfold Idb.idbGet. by rewrite get_result_absent.
  - unfold Idb.idbGet in H. by destruct io.
  - intros k' db'. unfold Idb.idbGet in *. by destruct io.
  - intros H. unfold Idb.idbDelete. by rewrite delete_id.
Qed.

(** C10. [idbGet] resolves to [null] for a key without entry and also for a
    key whose stored value is falsy ([null], the empty string, ...), because
    the result is coalesced with [|| null]: over a stored falsy value it
    answers what it answers once the entry is deleted, so its caller cannot
    tell the two apart. *)
Theorem idbGet_falsy_as_absent (key : string) (v : Js.value)
    (db : gmap string Js.value) :
  Js.truthy v = false ->
  Idb.idbGet true key (<[key := v]> db) = Resolved Js.VNull
  /\ (forall db0 : gmap string Js.value,
        db0 !! key = None -> Idb.idbGet true key db0 = Resolved Js.VNull)
  /\ (forall io, Idb.idbGet io key (<[key := v]> db)
                 = Idb.idbGet io key (delete key db)).
Proof.
  intros Hv.
  assert (Idb.idbGet true key (<[key := v]> db) = Resolved Js.VNull) as H1.
  { unfold Idb.idbGet. by rewrite get_result_insert, falsy_or_null. }
  assert (forall db0 : gmap string Js.value,
            db0 !! key = None -> Idb.idbGet true key db0 = Resolved Js.VNull) as H2.
  { intros db0 H0. unfold Idb.idbGet. by rewrite get_result_absent. }
  split; [exact H1 | split; [exact H2 |]].
  intros [|]; [|reflexivity].
  rewrite H1. symmetry. apply H2, lookup_delete_eq.
Qed.

Lemma idbGet_falsy_as_absent_witness :
  Idb.idbGet true "profilePic" (<["profilePic" := Js.VStr ""]> ∅) = Resolved Js.VNull
  /\ (forall db0 : gmap string Js.value,
        db0 !! "profilePic" = None ->
        Idb.idbGet true "profilePic" db0 = Resolved Js.VNull)
  /\ (forall io, Idb.idbGet io "profilePic" (<["profilePic" := Js.VStr ""]> ∅)
                 = Idb.idbGet io "profilePic" (delete "profilePic" ∅)).
Proof. apply (idbGet_falsy_as_absent "profilePic" (Js.VStr "") ∅). reflexivity. Defined.

(** ** The photo pipeline *)

Section PhotoFacts.
Import Js Idb Photo Inv.

Variable decode : Blob -> option Image.Size.
Variable encode : Canvas -> option Blob.

Lemma tidy3_fresh l m r : tidy3 l m r -> l !! m = None.
Proof.
  intros [Hl Hr]. destruct (l !! m) eqn:E; [|done].
  specialize (Hl m ltac:(eauto)). specialize (Hr m Hl). lia.
Qed.

Lemma tidy3_temp l m r b : tidy3 l m r -> delete m (<[m := b]> l) = l.
Proof. intros H. apply delete_insert_id. eapply tidy3_fresh, H. Qed.

Lemma tidy3_later l m r : tidy3 l m r -> tidy3 l (m + 1) r.
Proof. intros [Hl Hr]. split; [done|]. intros u Hu. specialize (Hr u Hu). lia. Qed.

Lemma tidy3_none l m : tidy3 l m None -> l = ∅.
Proof.
  intros [Hl _]. apply map_eq. intros u. rewrite lookup_empty.
  destruct (l !! u) eqn:E; [|done]. by specialize (Hl u ltac:(eauto)).
Qed.

Lemma tidy3_revoke l m u : tidy3 l m (Some u) -> delete u l = ∅.
Proof.
  intros [Hl _]. apply map_eq. intros v. rewrite lookup_empty.
  destruct (decide (u = v)) as [->|Hne]; [by rewrite lookup_delete_eq|].
  rewrite lookup_delete_ne by done.
  destruct (l !! v) eqn:E; [|done].
  specialize (Hl v ltac:(eauto)). congruence.
Qed.

Lemma tidy3_single m b : tidy3 (<[m := b]> ∅) (m + 1) (Some m).
Proof.
  split.
  - intros u [x Hx]. destruct (decide (m = u)) as [->|Hne]; [done|].
    rewrite lookup_insert_ne, lookup_empty in Hx; done.
  - intros u [= <-]. lia.
Qed.

Lemma tidy3_empty m r : (forall u, r = Some u -> (u < m)%N) -> tidy3 ∅ m r.
Proof. intros H. split; [|done]. intros u [x Hx]. by rewrite lookup_empty in Hx. Qed.

(** Minting a URL and installing it, as the mount effect and
    [handlePhotoPick] do: the new URL is the only live one. *)
Lemma tidy3_install l m r b :
  tidy3 l m r ->
  match r with
  | Some old => delete old (<[m := b]> l)
  | None => <[m := b]> l
  end = <[m := b]> ∅.
Proof.
  intros H. destruct r as [old|].
  - assert (old ≠ m) as Hne.
    { destruct H as [_ Hr]. specialize (Hr old eq_refl). lia. }
    rewrite delete_insert_ne by done. by rewrite (tidy3_revoke _ _ _ H).
  - by rewrite (tidy3_none _ _ H).
Qed.

(** The temporary URL [fileToImage] mints for the decoder is revoked on
    both of its exits. *)
Lemma fileToImage_eq file w :
  tidy w ->
  fileToImage decode file w
  = (bump w, match decode file with
             | Some img => Resolved img
             | None => Rejected DecodeError
             end).
Proof.
  destruct w as [d l m p e r]. unfold tidy. cbn. intros H.
  unfold fileToImage, bump, createObjectURL, revokeObjectURL. cbn.
  destruct (decode file); cbn; by rewrite (tidy3_temp _ _ _ _ H).
Qed.

Lemma compressFileToBlob_eq file w :
  tidy w ->
  compressFileToBlob decode encode file w
  = (bump w, match decode file with
             | Some img => Resolved (canvasToBlob encode (drawToCanvas file img 768))
             | None => Rejected DecodeError
             end).
Proof.
  intros H. unfold compressFileToBlob. rewrite (fileToImage_eq _ _ H).
  by destruct (decode file).
Qed.

(** What a new URL replaces: the mint and the three statements after it
    leave exactly the new URL alive. *)
Lemma install_minted b w :
  tidy w ->
  install (minted w) (fst (createObjectURL (VBlob b) w))
  = {| db := db w; live := <[minted w := b]> ∅; minted := (minted w + 1)%N;
       profilePicUrl := ObjectUrl (minted w); photoError := photoError w;
       lastObjectUrlRef := Some (minted w) |}.
Proof.
  destruct w as [d l m p e r]. unfold tidy. cbn. intros H.
  unfold install. cbn.
  rewrite <- (tidy3_install _ _ _ b H).
  by destruct r.
Qed.

(** [handlePhotoPick], outcome by outcome. *)
Lemma handlePhotoPick_eq file io w :
  tidy w ->
  handlePhotoPick decode encode file io w
  = match decode file with
    | None => setPhotoError save_failed (bump w)
    | Some img =>
        let v := canvasToBlob encode (drawToCanvas file img 768) in
        if io then
          match v with
          | VBlob b =>
              {| db := <["profilePic" := v]> (db w);
                 live := <[(minted w + 1)%N := b]> ∅;
                 minted := (minted w + 1 + 1)%N;
                 profilePicUrl := ObjectUrl (minted w + 1);
                 photoError := "";
                 lastObjectUrlRef := Some (minted w + 1)%N |}
          | _ => setPhotoError save_failed
                   (set_db (<["profilePic" := v]> (db w)) (bump w))
          end
        else setPhotoError save_failed (bump w)
    end.
Proof.
  intros H. unfold handlePhotoPick.
  rewrite compressFileToBlob_eq by exact H.
  destruct (decode file) as [img|]; [|done].
  cbn zeta. generalize (canvasToBlob encode (drawToCanvas file img 768)).
  intros v. unfold idbSet. destruct io; [|done].
  assert (tidy (set_db (<["profilePic" := v]> (db (bump (setPhotoError "" w))))
                  (bump (setPhotoError "" w)))) as H'.
  { unfold tidy. cbn. apply tidy3_later, H. }
  destruct v; try done.
  pose proof (install_minted b _ H') as Hi.
  cbn in Hi |- *. exact Hi.
Qed.

Lemma loadSavedPhoto_eq io w :
  tidy w ->
  loadSavedPhoto io w
  = if io then
      match or_null (get_result "profilePic" (db w)) with
      | VBlob b =>
          {| db := db w; live := <[minted w := b]> ∅;
             minted := (minted w + 1)%N;
             profilePicUrl := ObjectUrl (minted w);
             photoError := photoError w;
             lastObjectUrlRef := Some (minted w) |}
      | v => if truthy v then setPhotoError "Couldn't load saved photo." w else w
      end
    else setPhotoError "Couldn't load saved photo." w.
Proof.
  intros H. unfold loadSavedPhoto, idbGet. destruct io; [|done].
  destruct (or_null (get_result "profilePic" (db w))) as [| |b0|n|s|b] eqn:E;
    try done.
  cbn [truthy]. exact (install_minted b w H).
Qed.

Lemma tidy_handlePhotoPick file io w :
  tidy w -> tidy (handlePhotoPick decode encode file io w).
Proof.
  intros H. rewrite handlePhotoPick_eq by exact H.
  destruct (decode file) as [img|]; [|apply tidy3_later, H].
  cbn zeta. destruct io; [|apply tidy3_later, H].
  destruct (canvasToBlob _ _); try (apply tidy3_later, H).
  apply tidy3_single.
Qed.

Lemma tidy_loadSavedPhoto io w : tidy w -> tidy (loadSavedPhoto io w).
Proof.
  intros H. rewrite loadSavedPhoto_eq by exact H.
  destruct io; [|exact H].
  destruct (or_null _) as [| |b0|n|s|b]; cbn [truthy]; try exact H.
  - by destruct b0.
  - by destruct (negb _).
  - by destruct (negb _).
  - apply tidy3_single.
Qed.

Lemma live_cleanup w : tidy w -> live (cleanup w) = ∅.
Proof.
  destruct w as [d l m p e r]. unfold tidy, cleanup. cbn. intros H.
  destruct r as [u|]; cbn.
  - eapply tidy3_revoke, H.
  - eapply tidy3_none, H.
Qed.

Lemma tidy_cleanup w : tidy w -> tidy (cleanup w).
Proof.
  intros H. unfold tidy. rewrite (live_cleanup _ H).
  apply tidy3_empty. destruct H as [_ Hr].
  destruct w as [d l m p e r]. unfold cleanup. cbn in *. by destruct r.
Qed.

Lemma tidy_removePhoto io w : tidy w -> tidy (removePhoto io w).
Proof.
  destruct w as [d l m p e r]. unfold tidy, removePhoto. cbn. intros H.
  destruct r as [u|]; cbn.
  - rewrite (tidy3_revoke _ _ _ H). by apply tidy3_empty.
  - exact H.
Qed.

Lemma tidy_step e w : tidy w -> tidy (step decode encode e w).
Proof.
  destruct e; cbn [step];
    auto using tidy_loadSavedPhoto, tidy_handlePhotoPick, tidy_removePhoto,
               tidy_cleanup.
Qed.

Lemma tidy_run es w : tidy w -> tidy (run decode encode es w).
Proof.
  revert w. induction es as [|e es IH]; intros w H; [exact H|].
  cbn. apply IH, tidy_step, H.
Qed.

Lemma tidy_mounted d n : tidy (mounted d n).
Proof. by apply tidy3_empty. Qed.

Ltac world :=
  unfold bump, set_db, setPhotoError, setProfilePicUrl, set_lastObjectUrlRef,
    revokeObjectURL in *;
  cbn [db live minted profilePicUrl photoError lastObjectUrlRef fst snd] in *.

Ltac pick_cases H :=
  rewrite handlePhotoPick_eq by exact H;
  destruct (decode _) as [?img|]; cbn zeta;
  [ match goal with
    | |- context [canvasToBlob ?e ?c] => generalize (canvasToBlob e c)
    end;
    let v := fresh "v" in
    intros v;
    match goal with
    | |- context [if ?b then _ else _] => destruct b
    end;
    [ destruct v | ]
  | ];
  world.

Lemma tidy3_size l m r : tidy3 l m r -> (size l <= 1)%nat.
Proof.
  intros H. destruct r as [u|].
  - pose proof (tidy3_revoke _ _ _ H) as Hd.
    destruct (l !! u) as [x|] eqn:E.
    + rewrite <- (insert_delete_id l u x E), Hd.
      rewrite insert_empty, map_size_singleton. lia.
    + rewrite <- (delete_id l u E), Hd, map_size_empty. lia.
  - rewrite (tidy3_none _ _ H), map_size_empty. lia.
Qed.

Lemma minted_step e w :
  tidy w -> (minted w <= minted (step decode encode e w))%N.
Proof.
  intros H. destruct e as [io|file io|io|]; cbn [step].
  - rewrite loadSavedPhoto_eq by exact H.
    repeat case_match; world; lia.
  - pick_cases H; lia.
  - unfold removePhoto. repeat case_match; world; lia.
  - unfold cleanup. repeat case_match; world; lia.
Qed.

Lemma retired_step e u w :
  tidy w -> retired u w -> retired u (step decode encode e w).
Proof.
  intros H [Hu Hr]. split.
  { pose proof (minted_step e w H). lia. }
  destruct e as [io|file io|io|]; cbn [step].
  - rewrite loadSavedPhoto_eq by exact H.
    repeat case_match; world; try exact Hr.
    intros [= Heq]. lia.
  - pick_cases H; try exact Hr.
    intros [= Heq]. lia.
  - unfold removePhoto. repeat case_match; world; try done; congruence.
  - unfold cleanup. repeat case_match; world; congruence.
Qed.

Lemma retired_run es u w :
  tidy w -> retired u w -> retired u (run decode encode es w).
Proof.
  revert w. induction es as [|e es IH]; intros w H Hr; [exact Hr|].
  cbn. apply IH; [apply tidy_step, H | apply retired_step; assumption].
Qed.

Lemma retired_dead u w : tidy w -> retired u w -> resolve u w = None.
Proof.
  intros [Hl _] [_ Hr]. unfold resolve.
  destruct (live w !! u) eqn:E; [|done].
  exfalso. apply Hr, Hl. eauto.
Qed.

(** A failed upload, stage by stage: the message is shown and the picture
    on display stays; the store keeps its entry when the decoder or the
    store write fails. *)
Lemma handlePhotoPick_decode_fails file io w :
  tidy w -> decode file = None ->
  let w' := handlePhotoPick decode encode file io w in
  photoError w' = save_failed /\ profilePicUrl w' = profilePicUrl w
  /\ db w' = db w.
Proof. intros H E. cbn zeta. rewrite handlePhotoPick_eq, E by exact H. done. Qed.

Lemma handlePhotoPick_write_fails file w :
  tidy w ->
  let w' := handlePhotoPick decode encode file false w in
  photoError w' = save_failed /\ profilePicUrl w' = profilePicUrl w
  /\ db w' = db w.
Proof.
  intros H. cbn zeta. rewrite handlePhotoPick_eq by exact H.
  by destruct (decode file).
Qed.

(** When the canvas gives no Blob, [null] is written over the entry
    before [URL.createObjectURL(null)] throws. *)
Lemma handlePhotoPick_encode_fails file img w :
  tidy w -> decode file = Some img ->
  canvasToBlob encode (drawToCanvas file img 768) = VNull ->
  let w' := handlePhotoPick decode encode file true w in
  photoError w' = save_failed /\ profilePicUrl w' = profilePicUrl w
  /\ db w' = <["profilePic" := VNull]> (db w).
Proof.
  intros H E Hc. cbn zeta. rewrite handlePhotoPick_eq, E by exact H.
  cbn zeta. rewrite Hc. done.
Qed.

End PhotoFacts.

(** C7. After any sequence of mount loads, uploads, removals and teardowns
    on a freshly rendered page: every object URL that still resolves is the
    one held in [lastObjectUrlRef], so at most one is live; a URL the ref
    held before a step and no longer holds after it resolves to nothing from
    then on, whatever happens later; and right after the teardown no URL is
    live. *)
Theorem object_url_single_live
    (decode : Js.Blob -> option Image.Size)
    (encode : Photo.Canvas -> option Js.Blob)
    (d : gmap string Js.value) (n : N) (es : list Photo.event) :
  let w := Photo.run decode encode es (Photo.mounted d n) in
  (forall u, is_Some (Photo.resolve u w) -> Photo.lastObjectUrlRef w = Some u)
  /\ (size (Photo.live w) <= 1)%nat
  /\ (forall e u,
        Photo.lastObjectUrlRef w = Some u ->
        Photo.lastObjectUrlRef (Photo.step decode encode e w) <> Some u ->
        forall es',
          Photo.resolve u
            (Photo.run decode encode es' (Photo.step decode encode e w)) = None)
  /\ Photo.live (Photo.step decode encode Photo.Teardown w) = ∅.
Proof.
  intros w.
  assert (Inv.tidy w) as H by apply tidy_run, tidy_mounted.
  repeat split.
  - apply H.
  - eapply tidy3_size, H.
  - intros e u Hu Hne es'.
    assert (Inv.tidy (Photo.step decode encode e w)) as H1 by apply tidy_step, H.
    apply retired_dead; [apply tidy_run, H1|].
    apply retired_run; [exact H1|].
    split; [|exact Hne].
    pose proof (minted_step decode encode e w H).
    destruct H as [_ Hr]. specialize (Hr u Hu). lia.
  - apply live_cleanup, H.
Qed.

(** C6, at an upload the code mishandles. The page shows a stored photo;
    the user picks a picture of 1 x 2000 pixels. It decodes, the canvas
    gets width [Math.round(768 / 2000) = 0], [canvas.toBlob] yields [null],
    and [handlePhotoPick] writes that [null] over the stored photo before
    [URL.createObjectURL(null)] throws: the message is shown and the
    picture on display stays, but the entry under ["profilePic"] is no
    longer the photo that was stored. *)
Theorem handlePhotoPick_null_blob_overwrites :
  let w := Scenario.shown_photo in
  let w' := Photo.handlePhotoPick Scenario.decode Scenario.encode
              Scenario.thin_file true w in
  Photo.db w !! "profilePic" = Some (Js.VBlob Scenario.old_photo)
  /\ Photo.profilePicUrl w = Photo.ObjectUrl 0
  /\ Photo.photoError w' = Photo.save_failed
  /\ Photo.profilePicUrl w' = Photo.profilePicUrl w
  /\ Photo.db w' !! "profilePic" = Some Js.VNull.
Proof. vm_compute. repeat split. Qed.

(** ** Strings *)

Section StringFacts.
Import Js Inv.

Lemma append_cons x (a b : string) : String x a +:+ b = String x (a +:+ b).
Proof. reflexivity. Qed.

Lemma append_assoc (a b c : string) : (a +:+ b) +:+ c = a +:+ (b +:+ c).
Proof.
  induction a as [|x a IH]; [done|].
  by rewrite !append_cons, IH.
Qed.

Lemma replaceAll_append pat rep (a b : string) :
  replaceAll pat rep (a +:+ b) = replaceAll pat rep a +:+ replaceAll pat rep b.
Proof.
  induction a as [|x a IH]; [done|].
  rewrite append_cons. simpl. rewrite IH.
  destruct (Ascii.eqb x pat); [by rewrite append_assoc | done].
Qed.

Lemma solid_append (a s : string) : solid s -> solid (a +:+ s).
Proof.
  intros [Ht Hne]. induction a as [|x a [IHt IHne]]; [done|].
  rewrite append_cons. split; [|done].
  simpl. rewrite IHt. destruct (a +:+ s); [done | reflexivity].
Qed.

Lemma count_append p (a b : string) :
  Spec.count p (a +:+ b) = (Spec.count p a + Spec.count p b)%nat.
Proof.
  induction a as [|x a IH]; [done|].
  rewrite append_cons. simpl. rewrite IH. lia.
Qed.

End StringFacts.

(** ** HTML escaping *)

Section EscapeFacts.
Import Js Server Inv.

Lemma escapeHtml_append (a b : string) :
  escapeHtml (a +:+ b) = escapeHtml a +:+ escapeHtml b.
Proof. unfold escapeHtml. by rewrite !replaceAll_append. Qed.

Lemma escapeHtml_char (c : ascii) :
  escapeHtml (String c EmptyString) = Spec.entity c.
Proof. destruct c as [[] [] [] [] [] [] [] []]; reflexivity. Qed.

Lemma entity_inert (c : ascii) : Spec.count Spec.is_markup (Spec.entity c) = O.
Proof. destruct c as [[] [] [] [] [] [] [] []]; reflexivity. Qed.

Lemma escapeHtml_escaped (s : string) : escapeHtml s = Spec.escaped s.
Proof.
  induction s as [|c s IH]; [reflexivity|].
  change (String c s) with (String c EmptyString +:+ s).
  rewrite escapeHtml_append, escapeHtml_char, IH. reflexivity.
Qed.

Lemma escaped_inert (s : string) : Spec.count Spec.is_markup (Spec.escaped s) = O.
Proof.
  induction s as [|c s IH]; [reflexivity|].
  cbn [Spec.escaped]. by rewrite count_append, entity_inert, IH.
Qed.

Ltac solid_tail :=
  repeat lazymatch goal with
    | |- solid (_ +:+ _) => apply solid_append
    end;
  split; [reflexivity | discriminate].

Lemma html_of_frame (b : Body) :
  html_of b
  = Spec.html_frame (escapeHtml (name b)) (escapeHtml (email b))
      (escapeHtml (subject b)) (escapeHtml (message b)).
Proof.
  unfold html_of, trim.
  match goal with
  | |- trimStart (trimEnd ?s) = _ =>
      assert (solid s) as [-> _] by solid_tail
  end.
  reflexivity.
Qed.

Lemma count_html_frame p (n e s m : string) :
  Spec.count p (Spec.html_frame n e s m)
  = (Spec.count p (Spec.html_frame "" "" "" "")
     + Spec.count p n + Spec.count p e + Spec.count p s + Spec.count p m)%nat.
Proof.
  unfold Spec.html_frame. rewrite !count_append.
  change (Spec.count p "") with O. lia.
Qed.

End EscapeFacts.

(** ** The contact route *)

Section RouteFacts.
Import Js Server.

Variable isEmail : string -> bool.
Variable normalizeEmail : string -> string.
Variable sendMail : MailOptions -> bool.

Local Abbreviation validate := (validate isEmail normalizeEmail).
Local Abbreviation sanitized := (sanitized normalizeEmail).
Local Abbreviation route := (route isEmail normalizeEmail sendMail).
Local Abbreviation contact := (contact isEmail normalizeEmail sendMail).

Lemma validate_eq (b : Body) :
  validate b
  = (sanitized b,
     (if isLength 2 100 (trim (name b)) then []
      else [field_error (trim (name b)) "Name is required" "name"])
     ++ (if isEmail (email b) then []
         else [field_error (email b) "Valid email is required" "email"])
     ++ (if isLength 2 150 (trim (subject b)) then []
         else [field_error (trim (subject b)) "Subject is required" "subject"])
     ++ (if isLength 5 5000 (trim (message b)) then []
         else [field_error (trim (message b)) "Message is required" "message"])).
Proof. reflexivity. Qed.

Lemma violated_eq (b : Body) :
  Spec.violated isEmail b
  = (if isLength 2 100 (trim (name b)) then [] else ["name"])
    ++ (if isEmail (email b) then [] else ["email"])
    ++ (if isLength 2 150 (trim (subject b)) then [] else ["subject"])
    ++ (if isLength 5 5000 (trim (message b)) then [] else ["message"]).
Proof.
  unfold Spec.violated, Spec.fields, Spec.valid.
  change Spec.chars_after_trim with (fun lo hi s => isLength lo hi (trim s)).
  cbn -[isLength trim].
  destruct (isLength 2 100 _), (isEmail _), (isLength 2 150 _),
    (isLength 5 5000 _); reflexivity.
Qed.

Lemma validate_paths (b : Body) :
  map path (snd (validate b)) = Spec.violated isEmail b.
Proof.
  rewrite validate_eq, violated_eq.
  cbn [snd].
  destruct (isLength 2 100 _), (isEmail _), (isLength 2 150 _),
    (isLength 5 5000 _); reflexivity.
Qed.

Lemma route_invalid cfg (b : Body) :
  Spec.violated isEmail b <> [] ->
  route cfg b
  = ([], {| status := 400; payload := JErrors false (snd (validate b)) |}).
Proof.
  intros Hv. rewrite <- validate_paths in Hv.
  unfold Server.route. destruct (validate b) as [b' errors].
  cbn [snd] in *. unfold handler. by destruct errors.
Qed.

Lemma route_valid cfg (b : Body) :
  Spec.violated isEmail b = [] ->
  route cfg b
  = ([mail_of cfg (sanitized b)],
     if sendMail (mail_of cfg (sanitized b))
     then {| status := 200; payload := JMessage true "Sent" |}
     else {| status := 500; payload := JMessage false "Failed to send email" |}).
Proof.
  intros Hv. rewrite <- validate_paths in Hv.
  unfold Server.route. rewrite validate_eq in *.
  cbn [snd] in Hv. destruct (_ ++ _); [|done].
  unfold handler. by destruct (sendMail _).
Qed.

Lemma contact_next cfg st req :
  snd (rateLimit req (hits st)) = Next tt ->
  contact cfg st req
  = ({| hits := fst (rateLimit req (hits st));
        outbox := outbox st ++ fst (route cfg (body req)) |},
     snd (route cfg (body req))).
Proof.
  intros H. unfold Server.contact.
  destruct (rateLimit req (hits st)) as [h s]. cbn [fst snd] in *. subst s.
  by destruct (route cfg (body req)).
Qed.

Lemma contact_respond cfg st req r :
  snd (rateLimit req (hits st)) = Respond r ->
  contact cfg st req
  = ({| hits := fst (rateLimit req (hits st)); outbox := outbox st |}, r).
Proof.
  intros H. unfold Server.contact.
  destruct (rateLimit req (hits st)) as [h s]. cbn [fst snd] in *. by subst s.
Qed.

Lemma contact_hits cfg st req :
  hits (fst (contact cfg st req)) = fst (rateLimit req (hits st)).
Proof.
  destruct (snd (rateLimit req (hits st))) as [[]|r] eqn:E.
  - by rewrite contact_next.
  - by rewrite (contact_respond _ _ _ r).
Qed.

End RouteFacts.

(** C3. The HTML part of every mail the handler hands to [sendMail] is the
    fixed frame around [escapeHtml(name)], [escapeHtml(email)],
    [escapeHtml(subject)] and [escapeHtml(message)], for the four fields as
    the handler reads them from [req.body]; [escapeHtml] replaces every
    character of a text by its entity (the ampersand, the angle brackets and
    the two quotes by theirs, any other character by itself), so an escaped
    text holds no angle bracket and no quote, and the HTML part holds
    exactly as many of them as the empty frame; the text [<script>] comes
    out as [&lt;script&gt;]. This holds of the mail the handler builds, of
    every mail the route sends and of every mail a request adds to the
    outbox. *)
Theorem html_embeds_escaped_text
    (isEmail : string -> bool) (normalizeEmail : string -> string)
    (sendMail : Server.MailOptions -> bool)
    (cfg : Server.Config) (b : Server.Body) :
  Server.html (Server.mail_of cfg b)
  = Spec.html_frame (Server.escapeHtml (Server.name b))
      (Server.escapeHtml (Server.email b))
      (Server.escapeHtml (Server.subject b))
      (Server.escapeHtml (Server.message b))
  /\ (forall s, Server.escapeHtml s = Spec.escaped s)
  /\ (forall s, Spec.count Spec.is_markup (Server.escapeHtml s) = O)
  /\ Spec.count Spec.is_markup (Server.html (Server.mail_of cfg b))
     = Spec.count Spec.is_markup (Spec.html_frame "" "" "" "")
  /\ Server.escapeHtml "<script>" = "&lt;script&gt;"
  /\ (forall m,
        m ∈ fst (Server.route isEmail normalizeEmail sendMail cfg b) ->
        Server.html m
        = Spec.html_frame (Server.escapeHtml (Js.trim (Server.name b)))
            (Server.escapeHtml (normalizeEmail (Server.email b)))
            (Server.escapeHtml (Js.trim (Server.subject b)))
            (Server.escapeHtml (Js.trim (Server.message b)))
        /\ Spec.count Spec.is_markup (Server.html m)
           = Spec.count Spec.is_markup (Spec.html_frame "" "" "" ""))
  /\ (forall st req m,
        Server.body req = b ->
        m ∈ Server.outbox
              (fst (Server.contact isEmail normalizeEmail sendMail cfg st req)) ->
        m ∈ Server.outbox st
        \/ (Server.html m
            = Spec.html_frame (Server.escapeHtml (Js.trim (Server.name b)))
                (Server.escapeHtml (normalizeEmail (Server.email b)))
                (Server.escapeHtml (Js.trim (Server.subject b)))
                (Server.escapeHtml (Js.trim (Server.message b)))
            /\ Spec.count Spec.is_markup (Server.html m)
               = Spec.count Spec.is_markup (Spec.html_frame "" "" "" ""))).
Proof.
  assert (forall b0 : Server.Body,
            Spec.count Spec.is_markup (Server.html_of b0)
            = Spec.count Spec.is_markup (Spec.html_frame "" "" "" "")) as Hcount.
  { intros b0. rewrite html_of_frame, count_html_frame.
    rewrite !escapeHtml_escaped, !escaped_inert. lia. }
  assert (forall m,
            m ∈ fst (Server.route isEmail normalizeEmail sendMail cfg b) ->
            Server.html m
            = Spec.html_frame (Server.escapeHtml (Js.trim (Server.name b)))
                (Server.escapeHtml (normalizeEmail (Server.email b)))
                (Server.escapeHtml (Js.trim (Server.subject b)))
                (Server.escapeHtml (Js.trim (Server.message b)))
            /\ Spec.count Spec.is_markup (Server.html m)
               = Spec.count Spec.is_markup (Spec.html_frame "" "" "" "")) as Hroute.
  { intros m Hm.
    destruct (decide (Spec.violated isEmail b = [])) as [Hv | Hv].
    - rewrite (route_valid isEmail normalizeEmail sendMail cfg b Hv) in Hm.
      cbn [fst] in Hm. apply list_elem_of_singleton in Hm as ->.
      cbn [Server.html Server.mail_of]. split; [|apply Hcount].
      by rewrite html_of_frame.
    - rewrite (route_invalid isEmail normalizeEmail sendMail cfg b Hv) in Hm.
      cbn [fst] in Hm. by apply elem_of_nil in Hm. }
  split; [cbn [Server.html Server.mail_of]; apply html_of_frame|].
  split; [apply escapeHtml_escaped|].
  split; [intros s; rewrite escapeHtml_escaped; apply escaped_inert|].
  split; [cbn [Server.html Server.mail_of]; apply Hcount|].
  split; [reflexivity|].
  split; [exact Hroute|].
  intros st req m <- Hm.
  destruct (snd (Server.rateLimit req (Server.hits st))) as [[]|r] eqn:E.
  - rewrite contact_next in Hm by exact E. cbn [fst Server.outbox] in Hm.
    apply elem_of_app in Hm as [Hm | Hm]; [by left | right; by apply Hroute].
  - rewrite (contact_respond _ _ _ _ _ _ r) in Hm by exact E. by left.
Qed.

(** C1. When at least one of the four fields of a request body breaks its
    constraint (name of 2 to 100 characters after trimming, e-mail that
    passes the syntax check, subject of 2 to 150, message of 5 to 5000), the
    route makes no call to [sendMail] and responds 400 with
    [{ ok: false, errors }], where [errors] has exactly one entry for each
    field in violation, in the order name, email, subject, message; through
    the whole endpoint no mail is sent for such a request, and the response
    is that 400 whenever the limiter lets the request pass. *)
Theorem invalid_fields_rejected
    (isEmail : string -> bool) (normalizeEmail : string -> string)
    (sendMail : Server.MailOptions -> bool)
    (cfg : Server.Config) (b : Server.Body) :
  Spec.violated isEmail b <> [] ->
  exists errors,
    Server.route isEmail normalizeEmail sendMail cfg b
    = ([], {| Server.status := 400; Server.payload := Server.JErrors false errors |})
    /\ map Server.path errors = Spec.violated isEmail b
    /\ (forall st req,
          Server.body req = b ->
          Server.outbox (fst (Server.contact isEmail normalizeEmail sendMail cfg st req))
          = Server.outbox st)
    /\ (forall st req,
          Server.body req = b ->
          snd (Server.rateLimit req (Server.hits st)) = Server.Next tt ->
          snd (Server.contact isEmail normalizeEmail sendMail cfg st req)
          = {| Server.status := 400; Server.payload := Server.JErrors false errors |}).
Proof.
  intros Hv.
  exists (snd (Server.validate isEmail normalizeEmail b)).
  pose proof (route_invalid isEmail normalizeEmail sendMail cfg b Hv) as Hr.
  repeat split.
  - exact Hr.
  - apply validate_paths.
  - intros st req <-.
    destruct (snd (Server.rateLimit req (Server.hits st))) as [[]|r] eqn:E.
    + rewrite contact_next by exact E. rewrite Hr. cbn. apply app_nil_r.
    + by rewrite (contact_respond _ _ _ _ _ _ r).
  - intros st req <- E. rewrite contact_next by exact E. by rewrite Hr.
Qed.

Lemma invalid_fields_rejected_witness :
  exists errors,
    Server.route Scenario.isEmail Scenario.normalizeEmail Scenario.sendMail
      Scenario.cfg Scenario.bad_email
    = ([], {| Server.status := 400; Server.payload := Server.JErrors false errors |})
    /\ map Server.path errors = Spec.violated Scenario.isEmail Scenario.bad_email
    /\ (forall st req,
          Server.body req = Scenario.bad_email ->
          Server.outbox (fst (Server.contact Scenario.isEmail Scenario.normalizeEmail
                                Scenario.sendMail Scenario.cfg st req))
          = Server.outbox st)
    /\ (forall st req,
          Server.body req = Scenario.bad_email ->
          snd (Server.rateLimit req (Server.hits st)) = Server.Next tt ->
          snd (Server.contact Scenario.isEmail Scenario.normalizeEmail
                 Scenario.sendMail Scenario.cfg st req)
          = {| Server.status := 400; Server.payload := Server.JErrors false errors |}).
Proof.
  apply (invalid_fields_rejected Scenario.isEmail Scenario.normalizeEmail
           Scenario.sendMail Scenario.cfg Scenario.bad_email).
  vm_compute. discriminate.
Defined.

(** C9, as the code has it. A request that the limiter lets pass, whose
    four fields are valid and whose send succeeds is answered 200 with
    [{ ok: true, message: "Sent" }]; the handler calls [sendMail] exactly
    once, with the configured [MAIL_FROM] and [MAIL_TO] and, in [replyTo],
    the address that the [normalizeEmail] sanitizer makes of the caller's
    e-mail. *)
Theorem valid_submission_sends_once
    (isEmail : string -> bool) (normalizeEmail : string -> string)
    (sendMail : Server.MailOptions -> bool)
    (cfg : Server.Config) (st : Server.State) (req : Server.Request) :
  snd (Server.rateLimit req (Server.hits st)) = Server.Next tt ->
  Spec.violated isEmail (Server.body req) = [] ->
  sendMail (Server.mail_of cfg (Server.sanitized normalizeEmail (Server.body req))) = true ->
  exists m,
    snd (Server.contact isEmail normalizeEmail sendMail cfg st req)
    = {| Server.status := 200; Server.payload := Server.JMessage true "Sent" |}
    /\ Server.outbox (fst (Server.contact isEmail normalizeEmail sendMail cfg st req))
       = Server.outbox st ++ [m]
    /\ m = Server.mail_of cfg (Server.sanitized normalizeEmail (Server.body req))
    /\ Server.from m = Server.MAIL_FROM cfg
    /\ Server.to m = Server.MAIL_TO cfg
    /\ Server.replyTo m = normalizeEmail (Server.email (Server.body req)).
Proof.
  intros Hpass Hvalid Hsend.
  exists (Server.mail_of cfg (Server.sanitized normalizeEmail (Server.body req))).
  rewrite contact_next by exact Hpass.
  rewrite route_valid by exact Hvalid.
  rewrite Hsend. repeat split.
Qed.

Lemma valid_submission_sends_once_witness :
  exists m,
    snd (Server.contact Scenario.isEmail Scenario.normalizeEmail Scenario.sendMail
           Scenario.cfg Scenario.idle (Scenario.from_caller 0 Scenario.hello))
    = {| Server.status := 200; Server.payload := Server.JMessage true "Sent" |}
    /\ Server.outbox
         (fst (Server.contact Scenario.isEmail Scenario.normalizeEmail
                 Scenario.sendMail Scenario.cfg Scenario.idle
                 (Scenario.from_caller 0 Scenario.hello)))
       = Server.outbox Scenario.idle ++ [m]
    /\ m = Server.mail_of Scenario.cfg
             (Server.sanitized Scenario.normalizeEmail
                (Server.body (Scenario.from_caller 0 Scenario.hello)))
    /\ Server.from m = Server.MAIL_FROM Scenario.cfg
    /\ Server.to m = Server.MAIL_TO Scenario.cfg
    /\ Server.replyTo m
       = Scenario.normalizeEmail
           (Server.email (Server.body (Scenario.from_caller 0 Scenario.hello))).
Proof.
  apply (valid_submission_sends_once Scenario.isEmail Scenario.normalizeEmail
           Scenario.sendMail Scenario.cfg Scenario.idle
           (Scenario.from_caller 0 Scenario.hello));
    reflexivity.
Defined.

(** C9 as stated fails on the reply-to. The handler reads the e-mail
    after the [normalizeEmail] sanitizer has rewritten it in [req.body];
    validator's [normalizeEmail] puts the address in lower case, and so does
    the one of the worked cases. For the caller's address [Al@B.com] the
    mail that is sent carries [al@b.com] in [replyTo]. *)
Lemma reply_to_is_the_normalised_address :
  let req := Scenario.from_caller 0 Scenario.capitals in
  let st' := fst (Server.contact Scenario.isEmail Scenario.normalizeEmail
                    Scenario.sendMail Scenario.cfg Scenario.idle req) in
  snd (Server.rateLimit req (Server.hits Scenario.idle)) = Server.Next tt
  /\ Spec.violated Scenario.isEmail (Server.body req) = []
  /\ snd (Server.contact Scenario.isEmail Scenario.normalizeEmail
            Scenario.sendMail Scenario.cfg Scenario.idle req)
     = {| Server.status := 200; Server.payload := Server.JMessage true "Sent" |}
  /\ map Server.replyTo (Server.outbox st') = ["al@b.com"]
  /\ Server.email (Server.body req) = "Al@B.com"
  /\ ~ (forall (isEmail : string -> bool) (normalizeEmail : string -> string)
               (sendMail : Server.MailOptions -> bool)
               (cfg : Server.Config) (st : Server.State) (req : Server.Request),
          snd (Server.rateLimit req (Server.hits st)) = Server.Next tt ->
          Spec.violated isEmail (Server.body req) = [] ->
          sendMail (Server.mail_of cfg
                      (Server.sanitized normalizeEmail (Server.body req))) = true ->
          exists m,
            Server.outbox
              (fst (Server.contact isEmail normalizeEmail sendMail cfg st req))
            = Server.outbox st ++ [m]
            /\ Server.replyTo m = Server.email (Server.body req)).
Proof.
  cbn zeta.
  refine (conj eq_refl (conj eq_refl (conj eq_refl (conj eq_refl (conj eq_refl _))))).
  intros H.
  destruct (H Scenario.isEmail Scenario.normalizeEmail Scenario.sendMail
              Scenario.cfg Scenario.idle
              (Scenario.from_caller 0 Scenario.capitals)
              eq_refl eq_refl eq_refl) as (m & Hout & Hm).
  vm_compute in Hout. injection Hout as <-.
  vm_compute in Hm. discriminate Hm.
Qed.

(** ** The rate limiter *)

Section LimiterFacts.
Import Js Server.

(** One caller [k] and one interval of [windowMs] starting at [t0]. *)
Variable k : string.
Variable t0 : Z.

Local Abbreviation window_hits := (Inv.window_hits k t0).
Local Abbreviation settled := (Inv.settled k t0).

Lemma increment_same t (h : gmap string Client) :
  settled h -> t0 <= t < t0 + windowMs ->
  settled (fst (increment t k h))
  /\ window_hits (fst (increment t k h)) = window_hits h + 1
  /\ totalHits (snd (increment t k h)) = window_hits h + 1.
Proof.
  intros Hs Ht. unfold increment, window_hits, settled in *.
  cbn [fst snd]. rewrite lookup_insert_eq.
  assert (windowMs = 60000) as Hw by reflexivity.
  destruct (h !! k) as [c|] eqn:E; [specialize (Hs c eq_refl)|];
    repeat match goal with
           | |- context [Z.leb ?a ?b] => destruct (Z.leb_spec a b)
           end;
    unfold resetClient in *; cbn [totalHits resetTime] in *;
    repeat match goal with
           | |- context [Z.leb ?a ?b] => destruct (Z.leb_spec a b)
           end;
    try lia;
    (repeat split; [intros c' [= <-]; cbn [resetTime]; lia | lia ..]).
Qed.

Lemma increment_other t k' (h : gmap string Client) :
  k' <> k ->
  fst (increment t k' h) !! k = h !! k.
Proof. intros Hne. unfold increment. cbn [fst]. by rewrite lookup_insert_ne. Qed.

Lemma rateLimit_hits req (h : gmap string Client) :
  fst (rateLimit req h) = fst (increment (now req) (ip req) h).
Proof. unfold rateLimit. by destruct (increment _ _ _). Qed.

Lemma rateLimit_verdict req (h : gmap string Client) :
  snd (rateLimit req h)
  = if totalHits (snd (increment (now req) (ip req) h)) >? limit
    then Respond too_many else Next tt.
Proof. unfold rateLimit. by destruct (increment _ _ _). Qed.

Variable isEmail : string -> bool.
Variable normalizeEmail : string -> string.
Variable sendMail : MailOptions -> bool.

Local Abbreviation contact := (contact isEmail normalizeEmail sendMail).
Local Abbreviation serve := (serve isEmail normalizeEmail sendMail).

Lemma contact_counts cfg st req :
  settled (hits st) ->
  (ip req = k -> t0 <= now req < t0 + windowMs) ->
  settled (hits (fst (contact cfg st req)))
  /\ window_hits (hits (fst (contact cfg st req)))
     = window_hits (hits st) + Spec.arrivals k [req].
Proof.
  intros Hs Ht. rewrite contact_hits, rateLimit_hits.
  cbn [Spec.arrivals].
  destruct (String.eqb_spec (ip req) k) as [Heq | Hne].
  - rewrite Heq. destruct (increment_same (now req) (hits st) Hs (Ht Heq))
      as (H1 & H2 & _).
    split; [exact H1 | lia].
  - pose proof (increment_other (now req) (ip req) (hits st) Hne) as Hl.
    unfold settled, window_hits in *. rewrite Hl. split; [exact Hs | lia].
Qed.

Lemma serve_counts cfg reqs : forall st,
  settled (hits st) ->
  Forall (fun q => ip q = k -> t0 <= now q < t0 + windowMs) reqs ->
  settled (hits (fst (serve cfg st reqs)))
  /\ window_hits (hits (fst (serve cfg st reqs)))
     = window_hits (hits st) + Spec.arrivals k reqs.
Proof.
  induction reqs as [|q reqs IH]; intros st Hs Hall.
  - cbn. split; [exact Hs | lia].
  - apply Forall_cons in Hall as [Hq Hall].
    destruct (contact_counts cfg st q Hs Hq) as [Hs1 Hc1].
    cbn [Server.serve].
    destruct (contact cfg st q) as [st1 r] eqn:E1. cbn [fst] in *.
    specialize (IH st1 Hs1 Hall) as [Hs2 Hc2].
    destruct (serve cfg st1 reqs) as [st2 rs]. cbn [fst] in *.
    split; [exact Hs2|]. rewrite Hc2, Hc1. cbn [Spec.arrivals]. lia.
Qed.

End LimiterFacts.

(** C2. Take a caller whose limiter record, if it has one, is over by [t0],
    and requests served one after the other in which everything this caller
    sends falls within the 60 seconds from [t0]. Once ten or more of them
    are from this caller, the caller's next request within those 60 seconds
    is answered 429 by the limiter, which does not call [next()]: no mail is
    sent, and the answer and the state do not depend on the request's
    body. *)
Theorem eleventh_request_rejected
    (isEmail : string -> bool) (normalizeEmail : string -> string)
    (sendMail : Server.MailOptions -> bool)
    (cfg : Server.Config) (st : Server.State)
    (reqs : list Server.Request) (r : Server.Request) (t0 : Z) :
  (forall c, Server.hits st !! Server.ip r = Some c -> Server.resetTime c <= t0) ->
  Forall (fun q => Server.ip q = Server.ip r ->
                   t0 <= Server.now q < t0 + Server.windowMs) reqs ->
  t0 <= Server.now r < t0 + Server.windowMs ->
  10 <= Spec.arrivals (Server.ip r) reqs ->
  let st1 := fst (Server.serve isEmail normalizeEmail sendMail cfg st reqs) in
  snd (Server.rateLimit r (Server.hits st1)) = Server.Respond Server.too_many
  /\ snd (Server.contact isEmail normalizeEmail sendMail cfg st1 r) = Server.too_many
  /\ Server.outbox (fst (Server.contact isEmail normalizeEmail sendMail cfg st1 r))
     = Server.outbox st1
  /\ (forall b,
        Server.contact isEmail normalizeEmail sendMail cfg st1
          {| Server.ip := Server.ip r; Server.now := Server.now r; Server.body := b |}
        = Server.contact isEmail normalizeEmail sendMail cfg st1 r).
Proof.
  intros Hover Hall Hr Hten st1.
  set (k := Server.ip r) in *.
  assert (Inv.settled k t0 (Server.hits st)) as Hs.
  { intros c Hc. left. by apply Hover. }
  assert (Inv.window_hits k t0 (Server.hits st) = 0) as H0.
  { unfold Inv.window_hits. destruct (Server.hits st !! k) as [c|] eqn:E; [|done].
    by rewrite (proj2 (Z.leb_le _ _)) by (by apply Hover). }
  destruct (serve_counts k t0 isEmail normalizeEmail sendMail cfg reqs st Hs Hall)
    as [Hs1 Hc1].
  fold st1 in Hs1, Hc1.
  destruct (increment_same k t0 (Server.now r) (Server.hits st1) Hs1 Hr)
    as (_ & _ & Hhits).
  assert (forall b,
            snd (Server.rateLimit
                   {| Server.ip := k; Server.now := Server.now r; Server.body := b |}
                   (Server.hits st1))
            = Server.Respond Server.too_many) as Hverdict.
  { intros b. rewrite rateLimit_verdict. cbn [Server.ip Server.now].
    rewrite Hhits. unfold Server.limit.
    by rewrite (proj2 (Z.gtb_gt _ _)) by lia. }
  assert (snd (Server.rateLimit r (Server.hits st1))
          = Server.Respond Server.too_many) as Hv.
  { rewrite rateLimit_verdict. fold k. rewrite Hhits. unfold Server.limit.
    by rewrite (proj2 (Z.gtb_gt _ _)) by lia. }
  repeat split.
  - exact Hv.
  - by rewrite (contact_respond _ _ _ _ _ _ _ Hv).
  - by rewrite (contact_respond _ _ _ _ _ _ _ Hv).
  - intros b.
    rewrite (contact_respond _ _ _ _ _ _ _ (Hverdict b)).
    rewrite (contact_respond _ _ _ _ _ _ _ Hv).
    by rewrite !rateLimit_hits.
Qed.

Lemma eleventh_request_rejected_witness :
  let r := Scenario.from_caller 59999 Scenario.bad_email in
  let st1 := fst (Server.serve Scenario.isEmail Scenario.normalizeEmail
                    Scenario.sendMail Scenario.cfg Scenario.idle Scenario.ten) in
  snd (Server.rateLimit r (Server.hits st1)) = Server.Respond Server.too_many
  /\ snd (Server.contact Scenario.isEmail Scenario.normalizeEmail Scenario.sendMail
            Scenario.cfg st1 r) = Server.too_many
  /\ Server.outbox (fst (Server.contact Scenario.isEmail Scenario.normalizeEmail
                           Scenario.sendMail Scenario.cfg st1 r))
     = Server.outbox st1
  /\ (forall b,
        Server.contact Scenario.isEmail Scenario.normalizeEmail Scenario.sendMail
          Scenario.cfg st1
          {| Server.ip := Server.ip r; Server.now := Server.now r; Server.body := b |}
        = Server.contact Scenario.isEmail Scenario.normalizeEmail Scenario.sendMail
            Scenario.cfg st1 r).
Proof.
  apply (eleventh_request_rejected Scenario.isEmail Scenario.normalizeEmail
           Scenario.sendMail Scenario.cfg Scenario.idle Scenario.ten
           (Scenario.from_caller 59999 Scenario.bad_email) 0).
  - intros c Hc. vm_compute in Hc. discriminate.
  - unfold Scenario.ten, Server.windowMs. repeat constructor; cbn; lia.
  - unfold Server.windowMs. cbn. lia.
  - vm_compute. discriminate.
Defined.

(** ** Start-up *)

Section StartupFacts.
Import Js Server.

Lemma falsy_absent (x : option string) :
  x = None \/ x = Some "" -> Js.falsy x = true.
Proof. by intros [-> | ->]. Qed.

Lemma falsy_present (x : option string) s :
  x = Some s -> s <> "" -> Js.falsy x = false.
Proof. intros -> Hs. cbn. by apply String.eqb_neq. Qed.

Lemma startup_exits listen (env : gmap string string) k :
  k ∈ Spec.checked -> Js.falsy (env !! k) = true -> startup listen env = Exited 1.
Proof.
  unfold Spec.checked. intros Hk Hnot.
  repeat (apply elem_of_cons in Hk as [-> | Hk]);
    [ .. | by apply elem_of_nil in Hk ];
    unfold startup; rewrite Hnot;
    by rewrite ?orb_true_r.
Qed.

(** Whether the process ends at start-up does not hang on [SMTP_SECURE]. *)
Lemma startup_ignores_secure listen (env : gmap string string) (o : option string) :
  startup listen (partial_alter (fun _ => o) "SMTP_SECURE" env) = Exited 1
  <-> startup listen env = Exited 1.
Proof.
  unfold startup.
  rewrite !lookup_partial_alter_ne by done.
  cbn zeta. cbn [PORT].
  destruct (_ || _); [done|].
  destruct (listen _); [|done]. split; discriminate.
Qed.

End StartupFacts.

(** C5, as the code has it. When one of [SMTP_HOST], [SMTP_PORT],
    [SMTP_USER], [SMTP_PASS], [MAIL_TO], [MAIL_FROM] is absent (or empty),
    the process exits with status 1, whatever [app.listen] would have done,
    and answers no request. [SMTP_SECURE] is not among them: setting it,
    changing it or removing it never changes whether the process ends at
    start-up. *)
Theorem startup_requires_six_values
    (listen : string -> bool) (env : gmap string string) :
  (forall k, k ∈ Spec.checked ->
             env !! k = None \/ env !! k = Some "" ->
             Server.startup listen env = Server.Exited 1
             /\ forall isEmail normalizeEmail sendMail st req,
                  Server.accept isEmail normalizeEmail sendMail
                    (Server.startup listen env) st req = None)
  /\ (forall o : option string,
        Server.startup listen (partial_alter (fun _ => o) "SMTP_SECURE" env)
        = Server.Exited 1
        <-> Server.startup listen env = Server.Exited 1).
Proof.
  split.
  - intros k Hk Habs.
    assert (Server.startup listen env = Server.Exited 1) as ->
      by (eapply startup_exits; [exact Hk | by apply falsy_absent]).
    done.
  - intros o. apply startup_ignores_secure.
Qed.

(** C5 as stated fails on the secure flag: with the six tested variables
    set and [SMTP_SECURE] absent, on a machine where the default port can
    be bound, the process listens and serves. *)
Lemma startup_without_secure_flag :
  "SMTP_SECURE" ∈ Spec.required
  /\ Scenario.env_six !! "SMTP_SECURE" = None
  /\ Server.startup Scenario.listen Scenario.env_six
     = Server.Listening Scenario.cfg
  /\ (exists st,
        Server.accept Scenario.isEmail Scenario.normalizeEmail Scenario.sendMail
          (Server.startup Scenario.listen Scenario.env_six) Scenario.idle
          (Scenario.from_caller 0 Scenario.hello)
        = Some (st, {| Server.status := 200;
                       Server.payload := Server.JMessage true "Sent" |}))
  /\ ~ (forall listen env k, k ∈ Spec.required -> env !! k = None ->
                             Server.startup listen env = Server.Exited 1).
Proof.
  assert ("SMTP_SECURE" ∈ Spec.required) as Hin
    by (unfold Spec.required; set_solver).
  assert (Server.startup Scenario.listen Scenario.env_six
          = Server.Listening Scenario.cfg) as Hs
    by reflexivity.
  refine (conj Hin (conj eq_refl (conj Hs (conj _ _)))).
  - rewrite Hs. eexists. vm_compute. reflexivity.
  - intros H. specialize (H Scenario.listen Scenario.env_six "SMTP_SECURE" Hin eq_refl).
    rewrite Hs in H. discriminate.
Qed.

(** * Further properties *)

(** ** Image normalisation, for any bound *)

Section ResizeFacts.
Import Image.

Lemma round_div_nonneg a b : 0 <= a -> 0 < b -> 0 <= round_div a b.
Proof. intros Ha Hb. unfold round_div. apply Z.div_pos; lia. Qed.

Lemma round_div_zero a b : 0 <= a -> 0 < b -> (round_div a b = 0 <-> 2 * a < b).
Proof.
  intros Ha Hb. pose proof (round_div_bounds a b Ha Hb) as [Hlo Hhi].
  pose proof (round_div_nonneg a b Ha Hb) as Hnn.
  split; intros H.
  - rewrite H in Hhi. lia.
  - nia.
Qed.

End ResizeFacts.

(** X1. For every positive bound and every image of positive size,
    [drawToCanvas] never enlarges an edge, keeps both edges within the
    bound, and changes nothing when applied to its own result. *)
Theorem drawToCanvas_shrinks_once (w h maxSize : Z) :
  0 < w -> 0 < h -> 0 < maxSize ->
  let img := {| Image.width := w; Image.height := h |} in
  let out := Image.drawToCanvas img maxSize in
  0 <= Image.width out <= w
  /\ 0 <= Image.height out <= h
  /\ Image.width out <= maxSize
  /\ Image.height out <= maxSize
  /\ Image.drawToCanvas out maxSize = out.
Proof.
  intros Hw Hh Hm img out. subst img out.
  unfold Image.drawToCanvas. cbn [Image.width Image.height].
  destruct (Z.gtb_spec w h) as [Hwh | Hwh].
  - destruct (Z.gtb_spec w maxSize) as [Hbig | Hsmall]; cbn [Image.width Image.height].
    + pose proof (round_div_le (h * maxSize) w maxSize ltac:(nia) Hw ltac:(lia) ltac:(nia)) as Hr.
      pose proof (round_div_le (h * maxSize) w h ltac:(nia) Hw ltac:(lia) ltac:(nia)) as Hr'.
      pose proof (round_div_nonneg (h * maxSize) w ltac:(nia) Hw) as Hnn.
      repeat split; try lia.
      destruct (Z.gtb_spec maxSize (Image.round_div (h * maxSize) w)).
      * by rewrite Z.gtb_ltb, Z.ltb_irrefl.
      * destruct (Z.gtb_spec (Image.round_div (h * maxSize) w) maxSize); [lia | done].
    + repeat split; try lia.
      destruct (Z.gtb_spec w h); [|lia].
      destruct (Z.gtb_spec w maxSize); [lia | done].
  - destruct (Z.gtb_spec h maxSize) as [Hbig | Hsmall]; cbn [Image.width Image.height].
    + pose proof (round_div_le (w * maxSize) h maxSize ltac:(nia) Hh ltac:(lia) ltac:(nia)) as Hr.
      pose proof (round_div_le (w * maxSize) h w ltac:(nia) Hh ltac:(lia) ltac:(nia)) as Hr'.
      pose proof (round_div_nonneg (w * maxSize) h ltac:(nia) Hh) as Hnn.
      repeat split; try lia.
      destruct (Z.gtb_spec (Image.round_div (w * maxSize) h) maxSize); [lia|].
      by rewrite Z.gtb_ltb, Z.ltb_irrefl.
    + repeat split; try lia.
      destruct (Z.gtb_spec w h); [lia|].
      destruct (Z.gtb_spec h maxSize); [lia | done].
Qed.

Lemma drawToCanvas_shrinks_once_witness :
  let img := {| Image.width := 4000; Image.height := 3000 |} in
  let out := Image.drawToCanvas img 768 in
  0 <= Image.width out <= 4000
  /\ 0 <= Image.height out <= 3000
  /\ Image.width out <= 768
  /\ Image.height out <= 768
  /\ Image.drawToCanvas out 768 = out.
Proof. apply (drawToCanvas_shrinks_once 4000 3000 768); lia. Defined.

(** X2. With the bound 768, an image of positive size is reduced to a canvas
    with an edge of zero pixels exactly when its longer edge is more than
    1536 times its shorter one; for such a canvas [canvasToBlob] resolves
    with [null] whatever the encoder does. *)
Theorem drawToCanvas_empty_canvas
    (encode : Photo.Canvas -> option Js.Blob) (file : Js.Blob) (w h : Z) :
  0 < w -> 0 < h ->
  let img := {| Image.width := w; Image.height := h |} in
  let out := Image.drawToCanvas img 768 in
  (Image.shorter out = 0 <-> 1536 * Image.shorter img < Image.longer img)
  /\ (1536 * Image.shorter img < Image.longer img ->
      Photo.canvasToBlob encode (Photo.drawToCanvas file img 768) = Js.VNull).
Proof.
  intros Hw Hh img out.
  assert (Image.shorter out = 0 <-> 1536 * Image.shorter img < Image.longer img) as Hiff.
  { subst img out.
    unfold Image.drawToCanvas, Image.shorter, Image.longer.
    cbn [Image.width Image.height].
    destruct (Z.gtb_spec w h) as [Hwh | Hwh].
    - destruct (Z.gtb_spec w 768) as [Hbig | Hsmall]; cbn [Image.width Image.height].
      + pose proof (round_div_zero (h * 768) w ltac:(lia) Hw) as Hz.
        pose proof (round_div_nonneg (h * 768) w ltac:(lia) Hw) as Hnn.
        pose proof (round_div_le (h * 768) w 768 ltac:(lia) Hw ltac:(lia) ltac:(lia)) as Hr.
        rewrite Z.min_r by lia. rewrite (Z.min_r w h), (Z.max_l w h) by lia.
        rewrite Hz. lia.
      + lia.
    - destruct (Z.gtb_spec h 768) as [Hbig | Hsmall]; cbn [Image.width Image.height].
      + pose proof (round_div_zero (w * 768) h ltac:(lia) Hh) as Hz.
        pose proof (round_div_nonneg (w * 768) h ltac:(lia) Hh) as Hnn.
        pose proof (round_div_le (w * 768) h 768 ltac:(lia) Hh ltac:(lia) ltac:(lia)) as Hr.
        rewrite Z.min_l by lia. rewrite (Z.min_l w h), (Z.max_r w h) by lia.
        rewrite Hz. lia.
      + lia. }
  split; [exact Hiff|].
  intros Hthin. apply Hiff in Hthin.
  unfold Photo.canvasToBlob, Photo.drawToCanvas. cbn [Photo.canvas_size].
  fold out. unfold Image.shorter in Hthin.
  destruct (Z.eqb_spec (Image.width out) 0) as [|Hw0]; [done|].
  destruct (Z.eqb_spec (Image.height out) 0) as [|Hh0]; [done|].
  lia.
Qed.

Lemma drawToCanvas_empty_canvas_witness :
  let img := {| Image.width := 1; Image.height := 2000 |} in
  let out := Image.drawToCanvas img 768 in
  (Image.shorter out = 0 <-> 1536 * Image.shorter img < Image.longer img)
  /\ (1536 * Image.shorter img < Image.longer img ->
      Photo.canvasToBlob Scenario.encode
        (Photo.drawToCanvas Scenario.thin_file img 768) = Js.VNull).
Proof.
  apply (drawToCanvas_empty_canvas Scenario.encode Scenario.thin_file 1 2000); lia.
Defined.

(** ** The photo pipeline, operation by operation *)

Section PipelineFacts.
Import Js Idb Photo Inv Shape.

Variable decode : Blob -> option Image.Size.
Variable encode : Canvas -> option Blob.

Lemma tidy_reached d n es : tidy (run decode encode es (mounted d n)).
Proof. apply tidy_run, tidy_mounted. Qed.

Lemma tidy_dead_from l m r u : tidy3 l m r -> (m <= u)%N -> l !! u = None.
Proof.
  intros [Hl Hr] Hu. destruct (l !! u) eqn:E; [|done].
  specialize (Hl u ltac:(eauto)). specialize (Hr u Hl). lia.
Qed.

Lemma handlePhotoPick_succeeds file img b w :
  tidy w -> decode file = Some img ->
  canvasToBlob encode (drawToCanvas file img 768) = VBlob b ->
  handlePhotoPick decode encode file true w
  = {| db := <["profilePic" := VBlob b]> (db w);
       live := <[(minted w + 1)%N := b]> ∅;
       minted := (minted w + 1 + 1)%N;
       profilePicUrl := ObjectUrl (minted w + 1);
       photoError := "";
       lastObjectUrlRef := Some (minted w + 1)%N |}.
Proof.
  intros H Hd Hc. rewrite handlePhotoPick_eq by exact H.
  rewrite Hd. cbn zeta. by rewrite Hc.
Qed.

Lemma handlePhotoPick_fails file io w :
  tidy w -> decode file = None \/ io = false ->
  handlePhotoPick decode encode file io w = setPhotoError save_failed (bump w).
Proof.
  intros H Hf. rewrite handlePhotoPick_eq by exact H.
  destruct (decode file) as [img|]; [|done].
  destruct Hf as [? | ->]; done.
Qed.

Lemma loadSavedPhoto_blob b w :
  tidy w -> db w !! "profilePic" = Some (VBlob b) ->
  loadSavedPhoto true w
  = {| db := db w; live := <[minted w := b]> ∅; minted := (minted w + 1)%N;
       profilePicUrl := ObjectUrl (minted w); photoError := photoError w;
       lastObjectUrlRef := Some (minted w) |}.
Proof.
  intros H Hb. rewrite loadSavedPhoto_eq by exact H.
  unfold get_result. by rewrite Hb.
Qed.

Lemma loadSavedPhoto_quiet io w :
  loadSavedPhoto io w = w
  \/ loadSavedPhoto io w = setPhotoError "Couldn't load saved photo." w
  \/ (io = true /\ exists b, db w !! "profilePic" = Some (VBlob b)).
Proof.
  unfold loadSavedPhoto, idbGet. destruct io; [|by right; left].
  unfold get_result.
  destruct (db w !! "profilePic") as [[| |[]|n|s|b]|] eqn:E;
    unfold or_null; cbn;
    repeat case_match; simplify_eq/=;
    first [ by left | by right; left | right; right; by eauto ].
Qed.

Lemma removePhoto_eq io w :
  tidy w ->
  removePhoto io w
  = {| db := if io then delete "profilePic" (db w) else db w;
       live := ∅; minted := minted w; profilePicUrl := DefaultProfile;
       photoError := photoError w; lastObjectUrlRef := None |}.
Proof.
  destruct w as [d l m p e r]. unfold tidy, removePhoto, idbDelete. cbn.
  intros H.
  destruct r as [u|];
    unfold setProfilePicUrl, set_lastObjectUrlRef, revokeObjectURL, set_db; cbn.
  - rewrite (tidy3_revoke _ _ _ H). by destruct io.
  - rewrite (tidy3_none _ _ H). by destruct io.
Qed.

Lemma shown_step e w :
  tidy w -> shown w -> e <> Teardown -> shown (step decode encode e w).
Proof.
  intros H Hs Hne. destruct e as [io|file io|io|]; cbn [step]; [| | |done].
  - destruct (loadSavedPhoto_quiet io w) as [-> | [-> | [-> [b Hb]]]];
      [exact Hs | exact Hs |].
    rewrite (loadSavedPhoto_blob b w H Hb). right. by eexists _, _.
  - rewrite handlePhotoPick_eq by exact H.
    destruct (decode file) as [img|]; [|exact Hs].
    cbn zeta. destruct io; [|exact Hs].
    destruct (canvasToBlob _ _); try exact Hs.
    right. by eexists _, _.
  - rewrite removePhoto_eq by exact H. by left.
Qed.

Lemma shown_run es : forall w,
  tidy w -> shown w -> Teardown ∉ es -> shown (run decode encode es w).
Proof.
  induction es as [|e es IH]; intros w H Hs Hno; [exact Hs|].
  cbn. apply not_elem_of_cons in Hno as [Hne Hno].
  apply IH; [by apply tidy_step | by apply shown_step | exact Hno].
Qed.

End PipelineFacts.

(** X3. On a page reached by any sequence of mount loads, uploads, removals
    and teardowns, an upload that decodes, re-encodes to a Blob and is
    written stores that Blob under ["profilePic"], clears the error message
    and shows a new object URL: one that resolved to nothing before and now
    is the only live URL and resolves to the stored Blob. *)
Theorem upload_shows_stored_blob
    (decode : Js.Blob -> option Image.Size)
    (encode : Photo.Canvas -> option Js.Blob)
    (d : gmap string Js.value) (n : N) (es : list Photo.event)
    (file : Js.Blob) (img : Image.Size) (b : Js.Blob) :
  decode file = Some img ->
  Photo.canvasToBlob encode (Photo.drawToCanvas file img 768) = Js.VBlob b ->
  let w := Photo.run decode encode es (Photo.mounted d n) in
  let w' := Photo.handlePhotoPick decode encode file true w in
  Photo.db w' !! "profilePic" = Some (Js.VBlob b)
  /\ Photo.photoError w' = ""
  /\ exists u,
       Photo.profilePicUrl w' = Photo.ObjectUrl u
       /\ Photo.lastObjectUrlRef w' = Some u
       /\ Photo.resolve u w = None
       /\ Photo.resolve u w' = Some b
       /\ forall v, is_Some (Photo.resolve v w') -> v = u.
Proof.
  intros Hd Hc w w'.
  pose proof (tidy_reached decode encode d n es) as H. fold w in H.
  subst w'. rewrite (handlePhotoPick_succeeds decode encode file img b w H Hd Hc).
  unfold Photo.resolve. cbn.
  split; [by rewrite lookup_insert_eq|]. split; [done|].
  exists (Photo.minted w + 1)%N. repeat split.
  - eapply tidy_dead_from; [exact H | lia].
  - by rewrite lookup_insert_eq.
  - intros v [x Hx]. destruct (decide (v = (Photo.minted w + 1)%N)) as [|Hne]; [done|].
    by rewrite lookup_insert_ne, lookup_empty in Hx.
Qed.

Lemma upload_shows_stored_blob_witness :
  let b := {| Js.blob_type := "image/jpeg";
              Js.blob_bytes := Js.blob_bytes Scenario.old_photo |} in
  let w := Photo.run Scenario.decode Scenario.encode [] (Photo.mounted ∅ 0) in
  let w' := Photo.handlePhotoPick Scenario.decode Scenario.encode
              Scenario.old_photo true w in
  Photo.db w' !! "profilePic" = Some (Js.VBlob b)
  /\ Photo.photoError w' = ""
  /\ exists u,
       Photo.profilePicUrl w' = Photo.ObjectUrl u
       /\ Photo.lastObjectUrlRef w' = Some u
       /\ Photo.resolve u w = None
       /\ Photo.resolve u w' = Some b
       /\ forall v, is_Some (Photo.resolve v w') -> v = u.
Proof.
  apply (upload_shows_stored_blob Scenario.decode Scenario.encode ∅ 0 []
           Scenario.old_photo {| Image.width := 640; Image.height := 480 |});
    reflexivity.
Defined.

(** X4. The photo survives the session: a page rendered later over the
    store that a successful upload left, once its mount load has run, shows
    an object URL that resolves to the uploaded Blob, with no error
    message. *)
Theorem uploaded_photo_reloads
    (decode : Js.Blob -> option Image.Size)
    (encode : Photo.Canvas -> option Js.Blob)
    (d : gmap string Js.value) (n n' : N) (es : list Photo.event)
    (file : Js.Blob) (img : Image.Size) (b : Js.Blob) :
  decode file = Some img ->
  Photo.canvasToBlob encode (Photo.drawToCanvas file img 768) = Js.VBlob b ->
  let w' := Photo.handlePhotoPick decode encode file true
              (Photo.run decode encode es (Photo.mounted d n)) in
  let page := Photo.loadSavedPhoto true (Photo.mounted (Photo.db w') n') in
  Photo.photoError page = ""
  /\ exists u, Photo.profilePicUrl page = Photo.ObjectUrl u
               /\ Photo.resolve u page = Some b.
Proof.
  intros Hd Hc w' page. subst page w'.
  rewrite (handlePhotoPick_succeeds decode encode file img b _
             (tidy_reached decode encode d n es) Hd Hc).
  cbn [Photo.db].
  rewrite (loadSavedPhoto_blob b);
    [| apply tidy_mounted
     | unfold Photo.mounted; cbn [Photo.db]; by rewrite lookup_insert_eq].
  unfold Photo.resolve. cbn. split; [done|].
  eexists. split; [reflexivity|]. by rewrite lookup_insert_eq.
Qed.

Lemma uploaded_photo_reloads_witness :
  let b := {| Js.blob_type := "image/jpeg";
              Js.blob_bytes := Js.blob_bytes Scenario.old_photo |} in
  let w' := Photo.handlePhotoPick Scenario.decode Scenario.encode
              Scenario.old_photo true
              (Photo.run Scenario.decode Scenario.encode [] (Photo.mounted ∅ 0)) in
  let page := Photo.loadSavedPhoto true (Photo.mounted (Photo.db w') 5) in
  Photo.photoError page = ""
  /\ exists u, Photo.profilePicUrl page = Photo.ObjectUrl u
               /\ Photo.resolve u page = Some b.
Proof.
  apply (uploaded_photo_reloads Scenario.decode Scenario.encode ∅ 0 5 []
           Scenario.old_photo {| Image.width := 640; Image.height := 480 |});
    reflexivity.
Defined.

(** ** Store writes under every fate of their promise *)

Section AwaitFacts.
Import Js Idb Photo Inv.

Variable decode : Blob -> option Image.Size.
Variable encode : Canvas -> option Blob.

Lemma await_upload_resolves file w :
  Await.handlePhotoPick decode encode file Await.Resolves w
  = handlePhotoPick decode encode file true w.
Proof.
  unfold Await.handlePhotoPick, handlePhotoPick.
  by destruct (compressFileToBlob _ _ _ _) as [w1 [blob|e]].
Qed.

Lemma await_upload_rejects file w :
  Await.handlePhotoPick decode encode file Await.Rejects w
  = handlePhotoPick decode encode file false w.
Proof.
  unfold Await.handlePhotoPick, handlePhotoPick.
  by destruct (compressFileToBlob _ _ _ _) as [w1 [blob|e]].
Qed.

Lemma await_upload_pending file w :
  tidy w ->
  Await.handlePhotoPick decode encode file Await.NeverSettles w
  = match decode file with
    | Some _ => setPhotoError "" (bump w)
    | None => setPhotoError save_failed (bump w)
    end.
Proof.
  intros H. unfold Await.handlePhotoPick.
  rewrite compressFileToBlob_eq by exact H.
  by destruct (decode file).
Qed.

Lemma await_remove_resolves w :
  Await.removePhoto Await.Resolves w = removePhoto true w.
Proof. reflexivity. Qed.

Lemma await_remove_rejects w :
  Await.removePhoto Await.Rejects w = removePhoto false w.
Proof. reflexivity. Qed.

Lemma await_remove_pending w : Await.removePhoto Await.NeverSettles w = w.
Proof. by destruct w. Qed.

Lemma tidy_await_step e w : tidy w -> tidy (Await.step decode encode e w).
Proof.
  intros H. destruct e as [io|file f|f|]; cbn [Await.step].
  - by apply tidy_loadSavedPhoto.
  - destruct f.
    + rewrite await_upload_resolves. by apply tidy_handlePhotoPick.
    + rewrite await_upload_rejects. by apply tidy_handlePhotoPick.
    + rewrite await_upload_pending by exact H.
      destruct (decode file); apply tidy3_later, H.
  - destruct f.
    + rewrite await_remove_resolves. by apply tidy_removePhoto.
    + rewrite await_remove_rejects. by apply tidy_removePhoto.
    + by rewrite await_remove_pending.
  - by apply tidy_cleanup.
Qed.

Lemma tidy_await_reached d n es :
  tidy (Await.run decode encode es (mounted d n)).
Proof.
  generalize (tidy_mounted d n). generalize (mounted d n).
  induction es as [|e es IH]; intros w H; [exact H|].
  cbn. apply IH, tidy_await_step, H.
Qed.

End AwaitFacts.

(** X5. On a page reached by any sequence of events, whatever became of the
    store writes before, an upload whose image does not decode, or whose
    store write does not resolve, leaves the stored entries, the picture on
    display, the URL in the ref and the live URLs as they were. It shows
    the error message when the image does not decode or the write rejects.
    When the image decodes and the promise of the write never settles, the
    function stays at its [await]: the message is the empty one that
    [setPhotoError("")] set, and no error is ever shown. *)
Theorem failed_upload_changes_nothing
    (decode : Js.Blob -> option Image.Size)
    (encode : Photo.Canvas -> option Js.Blob)
    (d : gmap string Js.value) (n : N) (es : list Await.event)
    (file : Js.Blob) (f : Await.fate) :
  decode file = None \/ f <> Await.Resolves ->
  let w := Await.run decode encode es (Photo.mounted d n) in
  let w' := Await.handlePhotoPick decode encode file f w in
  Photo.db w' = Photo.db w
  /\ Photo.profilePicUrl w' = Photo.profilePicUrl w
  /\ Photo.lastObjectUrlRef w' = Photo.lastObjectUrlRef w
  /\ Photo.live w' = Photo.live w
  /\ (decode file = None \/ f = Await.Rejects ->
      Photo.photoError w' = Photo.save_failed)
  /\ (decode file <> None -> f = Await.NeverSettles ->
      Photo.photoError w' = "").
Proof.
  intros Hf w w'.
  pose proof (tidy_await_reached decode encode d n es) as H. fold w in H.
  subst w'. destruct f.
  - destruct Hf as [Hd | Hne]; [|done].
    rewrite await_upload_resolves.
    rewrite (handlePhotoPick_fails decode encode file true w H (or_introl Hd)).
    cbn. do 4 (split; [done|]). split; [done|]. by intros Hs.
  - rewrite await_upload_rejects.
    rewrite (handlePhotoPick_fails decode encode file false w H
               (or_intror eq_refl)).
    cbn. do 4 (split; [done|]). split; [done|]. by intros _ [=].
  - rewrite (await_upload_pending decode encode file w H).
    destruct (decode file) as [img|] eqn:Hd; cbn.
    + do 4 (split; [done|]). split; [|done]. by intros [[=] | [=]].
    + do 4 (split; [done|]). split; [done|]. by intros Hs.
Qed.

Lemma failed_upload_changes_nothing_witness :
  let w := Await.run Scenario.decode Scenario.encode
             [Await.MountLoad true; Await.Remove Await.NeverSettles]
             (Photo.mounted (<["profilePic" := Js.VBlob Scenario.old_photo]> ∅) 0) in
  let w' := Await.handlePhotoPick Scenario.decode Scenario.encode
              Scenario.old_photo Await.NeverSettles w in
  Photo.db w' = Photo.db w
  /\ Photo.profilePicUrl w' = Photo.profilePicUrl w
  /\ Photo.lastObjectUrlRef w' = Photo.lastObjectUrlRef w
  /\ Photo.live w' = Photo.live w
  /\ (Scenario.decode Scenario.old_photo = None
      \/ Await.NeverSettles = Await.Rejects ->
      Photo.photoError w' = Photo.save_failed)
  /\ (Scenario.decode Scenario.old_photo <> None ->
      Await.NeverSettles = Await.NeverSettles ->
      Photo.photoError w' = "").
Proof.
  apply (failed_upload_changes_nothing Scenario.decode Scenario.encode
           (<["profilePic" := Js.VBlob Scenario.old_photo]> ∅) 0
           [Await.MountLoad true; Await.Remove Await.NeverSettles]
           Scenario.old_photo Await.NeverSettles).
  right. discriminate.
Defined.

(** X6. On a page reached by any sequence of events, whatever became of the
    store writes before, [removePhoto] never shows a message. When the
    promise of its delete settles, it shows the bundled picture, empties
    the ref and leaves no URL alive: if the delete went through, the entry
    is gone and a page rendered later over that store stays on the bundled
    picture; if it was rejected, the failure is swallowed and the store
    keeps what it had. When the promise never settles, the function stays
    at its [await] and the page, the picture on display included, is
    exactly as it was. *)
Theorem removePhoto_reverts_display
    (decode : Js.Blob -> option Image.Size)
    (encode : Photo.Canvas -> option Js.Blob)
    (d : gmap string Js.value) (n : N) (es : list Await.event)
    (f : Await.fate) :
  let w := Await.run decode encode es (Photo.mounted d n) in
  let w' := Await.removePhoto f w in
  Photo.photoError w' = Photo.photoError w
  /\ (f <> Await.NeverSettles ->
      Photo.profilePicUrl w' = Photo.DefaultProfile
      /\ Photo.lastObjectUrlRef w' = None
      /\ Photo.live w' = ∅)
  /\ (f = Await.Resolves ->
      Photo.db w' !! "profilePic" = None
      /\ forall n', Photo.loadSavedPhoto true (Photo.mounted (Photo.db w') n')
                    = Photo.mounted (Photo.db w') n')
  /\ (f = Await.Rejects -> Photo.db w' = Photo.db w)
  /\ (f = Await.NeverSettles -> w' = w).
Proof.
  intros w w'.
  pose proof (tidy_await_reached decode encode d n es) as H. fold w in H.
  subst w'. destruct f.
  - rewrite await_remove_resolves, (removePhoto_eq true w H). cbn.
    split; [done|]. split; [done|]. split; [|done].
    intros _. split; [apply lookup_delete_eq|].
    intros n'. unfold Photo.loadSavedPhoto, Idb.idbGet, Idb.get_result. cbn.
    by rewrite lookup_delete_eq.
  - rewrite await_remove_rejects, (removePhoto_eq false w H). cbn.
    split; [done|]. split; [done|]. split; [by intros [=]|]. done.
  - rewrite await_remove_pending.
    split; [done|]. split; [done|]. split; [by intros [=]|].
    split; [by intros [=]|]. done.
Qed.

(** X7. The mount load changes the page only when the read goes through and
    the stored value is a Blob. For any page: with no entry, or a stored
    [null] or other falsy value, it leaves the page as it is; on a read
    failure, and on every stored value that is truthy but no Blob, it sets
    the message ["Couldn't load saved photo."] and changes nothing else. *)
Theorem mount_load_without_blob (io : bool) (w : Photo.World) :
  (forall b, Photo.db w !! "profilePic" = Some (Js.VBlob b) -> io = false) ->
  (Photo.loadSavedPhoto io w = w
   \/ Photo.loadSavedPhoto io w
      = Photo.setPhotoError "Couldn't load saved photo." w)
  /\ (io = true ->
      (Photo.db w !! "profilePic" = None
       \/ exists v, Photo.db w !! "profilePic" = Some v /\ Js.truthy v = false) ->
      Photo.loadSavedPhoto io w = w)
  /\ (io = true ->
      forall v, Photo.db w !! "profilePic" = Some v -> Js.truthy v = true ->
      Photo.loadSavedPhoto io w
      = Photo.setPhotoError "Couldn't load saved photo." w)
  /\ (io = false ->
      Photo.loadSavedPhoto io w
      = Photo.setPhotoError "Couldn't load saved photo." w).
Proof.
  intros Hnb. split; [|split; [|split]].
  - destruct (loadSavedPhoto_quiet io w) as [H | [H | [-> [b Hb]]]]; eauto.
    by specialize (Hnb b Hb).
  - intros -> Hv. unfold Photo.loadSavedPhoto, Idb.idbGet, Idb.get_result.
    destruct Hv as [-> | (v & -> & Hv)]; [done|].
    unfold Js.or_null. by rewrite Hv.
  - intros -> v Hv Ht.
    unfold Photo.loadSavedPhoto, Idb.idbGet, Idb.get_result.
    rewrite Hv. unfold Js.or_null. rewrite Ht, Ht.
    destruct v as [| |c|z|t|b]; try done.
    by specialize (Hnb b Hv).
  - by intros ->.
Qed.

Lemma mount_load_without_blob_witness :
  let w := Photo.mounted (<["profilePic" := Js.VStr "photo"]> ∅) 0 in
  (Photo.loadSavedPhoto true w = w
   \/ Photo.loadSavedPhoto true w
      = Photo.setPhotoError "Couldn't load saved photo." w)
  /\ (true = true ->
      (Photo.db w !! "profilePic" = None
       \/ exists v, Photo.db w !! "profilePic" = Some v /\ Js.truthy v = false) ->
      Photo.loadSavedPhoto true w = w)
  /\ (true = true ->
      forall v, Photo.db w !! "profilePic" = Some v -> Js.truthy v = true ->
      Photo.loadSavedPhoto true w
      = Photo.setPhotoError "Couldn't load saved photo." w)
  /\ (true = false ->
      Photo.loadSavedPhoto true w
      = Photo.setPhotoError "Couldn't load saved photo." w).
Proof.
  apply (mount_load_without_blob true
           (Photo.mounted (<["profilePic" := Js.VStr "photo"]> ∅) 0)).
  intros b Hb. vm_compute in Hb. discriminate.
Defined.

(** X8. Until the teardown, the picture on display and the object URLs
    agree after every sequence of mount loads, uploads and removals: either
    the bundled picture is shown, the ref is empty and no URL is alive, or
    the URL shown is the one in the ref and it is alive and alone, so the
    page never shows a revoked URL. *)
Theorem display_agrees_with_urls
    (decode : Js.Blob -> option Image.Size)
    (encode : Photo.Canvas -> option Js.Blob)
    (d : gmap string Js.value) (n : N) (es : list Photo.event) :
  Photo.Teardown ∉ es ->
  let w := Photo.run decode encode es (Photo.mounted d n) in
  Shape.shown w
  /\ (forall u, Photo.profilePicUrl w = Photo.ObjectUrl u ->
                is_Some (Photo.resolve u w))
  /\ (Photo.profilePicUrl w = Photo.DefaultProfile -> Photo.live w = ∅).
Proof.
  intros Hno w.
  assert (Shape.shown w) as Hs.
  { apply shown_run; [apply tidy_mounted | by left | exact Hno]. }
  split; [exact Hs|]. split.
  - intros u Hu. destruct Hs as [(Hd & _) | (u' & b & Hp & _ & Hl)]; [congruence|].
    unfold Photo.resolve. rewrite Hl.
    assert (u' = u) as -> by congruence. rewrite lookup_insert_eq. eauto.
  - intros Hd. destruct Hs as [(_ & _ & Hl) | (u' & b & Hp & _)]; [done | congruence].
Qed.

Lemma display_agrees_with_urls_witness :
  let w := Photo.run Scenario.decode Scenario.encode
             [Photo.MountLoad true; Photo.Upload Scenario.old_photo true;
              Photo.Upload Scenario.thin_file true]
             (Photo.mounted ∅ 0) in
  Shape.shown w
  /\ (forall u, Photo.profilePicUrl w = Photo.ObjectUrl u ->
                is_Some (Photo.resolve u w))
  /\ (Photo.profilePicUrl w = Photo.DefaultProfile -> Photo.live w = ∅).
Proof.
  apply (display_agrees_with_urls Scenario.decode Scenario.encode ∅ 0
           [Photo.MountLoad true; Photo.Upload Scenario.old_photo true;
            Photo.Upload Scenario.thin_file true]).
  intros H. repeat (apply elem_of_cons in H as [H | H]; [discriminate|]).
  by apply elem_of_nil in H.
Defined.

(** ** Trimming *)

Section TrimFacts.
Import Js Inv Shape.

Lemma append_nonempty_r (a t : string) : t <> "" -> a +:+ t <> "".
Proof. intros Ht. destruct a; [exact Ht | by rewrite append_cons]. Qed.

Lemma blank_append (a b : string) : blank (a +:+ b) = blank a && blank b.
Proof.
  induction a as [|c a IH]; [done|].
  rewrite append_cons. simpl. rewrite IH. by rewrite andb_assoc.
Qed.

Lemma trimEnd_blank (q : string) : blank q = true -> trimEnd q = "".
Proof.
  induction q as [|c q IH]; [done|]. simpl.
  intros [Hc Hq]%andb_prop. by rewrite (IH Hq), Hc.
Qed.

Lemma trimEnd_empty_blank (s : string) : trimEnd s = "" -> blank s = true.
Proof.
  induction s as [|c s IH]; [done|]. simpl.
  destruct (trimEnd s); [|done].
  destruct (is_ws c); [|done]. intros _. by rewrite IH.
Qed.

Lemma trimEnd_append_blank (s q : string) :
  blank q = true -> trimEnd (s +:+ q) = trimEnd s.
Proof.
  intros Hq. induction s as [|c s IH]; [by apply trimEnd_blank|].
  rewrite append_cons. simpl. by rewrite IH.
Qed.

Lemma trimEnd_append_kept (a s : string) :
  trimEnd s <> "" -> trimEnd (a +:+ s) = a +:+ trimEnd s.
Proof.
  intros Hs. induction a as [|c a IH]; [done|].
  rewrite !append_cons. simpl. rewrite IH.
  pose proof (append_nonempty_r a (trimEnd s) Hs).
  by destruct (a +:+ trimEnd s).
Qed.

Lemma trimStart_blank_append (p s : string) :
  blank p = true -> trimStart (p +:+ s) = trimStart s.
Proof.
  induction p as [|c p IH]; [done|].
  rewrite append_cons. simpl. intros [Hc Hp]%andb_prop. rewrite Hc. by apply IH.
Qed.

Lemma trimStart_blank (p : string) : blank p = true -> trimStart p = "".
Proof.
  induction p as [|c p IH]; [done|]. simpl.
  intros [Hc Hp]%andb_prop. rewrite Hc. by apply IH.
Qed.

(** White space around a text does not survive [trim] and changes nothing
    else. *)
Lemma trim_padded (p s q : string) :
  blank p = true -> blank q = true -> trim (p +:+ s +:+ q) = trim s.
Proof.
  intros Hp Hq. unfold trim.
  destruct (decide (trimEnd s = "")) as [Hs | Hs].
  - rewrite Hs. rewrite trimEnd_blank; [done|].
    rewrite !blank_append, Hp, Hq, (trimEnd_empty_blank _ Hs). done.
  - rewrite trimEnd_append_kept by (by rewrite trimEnd_append_blank).
    rewrite trimEnd_append_blank by exact Hq.
    by apply trimStart_blank_append.
Qed.

Lemma trimEnd_fixed_tail c (s : string) :
  trimEnd (String c s) = String c s -> trimEnd s = s.
Proof.
  simpl. destruct (trimEnd s) eqn:E.
  - destruct (is_ws c); [done|]. by intros [= <-].
  - by intros [= <-].
Qed.

Lemma trimEnd_idem (s : string) : trimEnd (trimEnd s) = trimEnd s.
Proof.
  induction s as [|c s IH]; [done|]. simpl.
  destruct (trimEnd s) as [|c' t] eqn:E.
  - destruct (is_ws c) eqn:Hc; [done|]. simpl. by rewrite Hc.
  - change (trimEnd (String c (String c' t))) with
      (match trimEnd (String c' t) with
       | EmptyString => if is_ws c then EmptyString else String c EmptyString
       | t0 => String c t0
       end).
    by rewrite IH.
Qed.

Lemma trimEnd_trimStart (s : string) :
  trimEnd s = s -> trimEnd (trimStart s) = trimStart s.
Proof.
  induction s as [|c s IH]; [done|]. intros H.
  simpl trimStart. destruct (is_ws c); [|exact H].
  apply IH. by eapply trimEnd_fixed_tail.
Qed.

Lemma trimStart_idem (s : string) : trimStart (trimStart s) = trimStart s.
Proof.
  induction s as [|c s IH]; [done|]. simpl.
  destruct (is_ws c) eqn:Hc; [exact IH|]. simpl. by rewrite Hc.
Qed.

Lemma trim_idem (s : string) : trim (trim s) = trim s.
Proof.
  unfold trim.
  rewrite (trimEnd_trimStart (trimEnd s)) by apply trimEnd_idem.
  apply trimStart_idem.
Qed.

End TrimFacts.

(** X9. White space around the name, the subject and the message counts for
    nothing: for every request body, padding these three fields with white
    space on either side gives the same sanitised body, the same validation
    errors, the same mail and the same response. *)
Theorem padding_fields_changes_nothing
    (isEmail : string -> bool) (normalizeEmail : string -> string)
    (sendMail : Server.MailOptions -> bool)
    (cfg : Server.Config) (b : Server.Body) (pn qn ps qs pm qm : string) :
  Shape.blank pn = true -> Shape.blank qn = true ->
  Shape.blank ps = true -> Shape.blank qs = true ->
  Shape.blank pm = true -> Shape.blank qm = true ->
  let padded :=
    {| Server.name := pn +:+ Server.name b +:+ qn;
       Server.email := Server.email b;
       Server.subject := ps +:+ Server.subject b +:+ qs;
       Server.message := pm +:+ Server.message b +:+ qm |} in
  Server.validate isEmail normalizeEmail padded
  = Server.validate isEmail normalizeEmail b
  /\ Server.route isEmail normalizeEmail sendMail cfg padded
     = Server.route isEmail normalizeEmail sendMail cfg b.
Proof.
  intros Hpn Hqn Hps Hqs Hpm Hqm padded.
  assert (Server.validate isEmail normalizeEmail padded
          = Server.validate isEmail normalizeEmail b) as Hv.
  { rewrite !validate_eq. unfold Server.sanitized. subst padded.
    cbn [Server.name Server.email Server.subject Server.message].
    by rewrite !trim_padded. }
  split; [exact Hv|]. unfold Server.route. by rewrite Hv.
Qed.

Lemma padding_fields_changes_nothing_witness :
  let padded :=
    {| Server.name := "  " +:+ Server.name Scenario.hello +:+ " ";
       Server.email := Server.email Scenario.hello;
       Server.subject := Server.nl +:+ Server.subject Scenario.hello +:+ "";
       Server.message := "" +:+ Server.message Scenario.hello +:+ Server.nl |} in
  Server.validate Scenario.isEmail Scenario.normalizeEmail padded
  = Server.validate Scenario.isEmail Scenario.normalizeEmail Scenario.hello
  /\ Server.route Scenario.isEmail Scenario.normalizeEmail Scenario.sendMail
       Scenario.cfg padded
     = Server.route Scenario.isEmail Scenario.normalizeEmail Scenario.sendMail
         Scenario.cfg Scenario.hello.
Proof.
  apply (padding_fields_changes_nothing Scenario.isEmail Scenario.normalizeEmail
           Scenario.sendMail Scenario.cfg Scenario.hello
           "  " " " Server.nl "" "" Server.nl);
    reflexivity.
Defined.

(** ** HTML escaping loses nothing *)

Section EntityFacts.
Import Js Server.

Lemma entity_cases (c : ascii) :
  (Spec.entity c = String c EmptyString /\ c <> "&"%char)
  \/ (c = "&"%char /\ Spec.entity c = "&amp;")
  \/ (c = "<"%char /\ Spec.entity c = "&lt;")
  \/ (c = ">"%char /\ Spec.entity c = "&gt;")
  \/ (c = "034"%char /\ Spec.entity c = "&quot;")
  \/ (c = "'"%char /\ Spec.entity c = "&#039;").
Proof.
  destruct c as [[] [] [] [] [] [] [] []];
    first [ by left
          | by right; left
          | by right; right; left
          | by right; right; right; left
          | by right; right; right; right; left
          | by right; right; right; right; right ].
Qed.

Lemma entity_prefix_inj (c d : ascii) (x y : string) :
  Spec.entity c +:+ x = Spec.entity d +:+ y -> c = d /\ x = y.
Proof.
  destruct (entity_cases c) as [[-> Hc] | [[-> ->] | [[-> ->] | [[-> ->] | [[-> ->] | [-> ->]]]]]];
    destruct (entity_cases d) as [[-> Hd] | [[-> ->] | [[-> ->] | [[-> ->] | [[-> ->] | [-> ->]]]]]];
    rewrite ?append_cons; intros H; by simplify_eq.
Qed.

Lemma escaped_injective (s t : string) : Spec.escaped s = Spec.escaped t -> s = t.
Proof.
  revert t. induction s as [|c s IH]; intros [|d t]; cbn [Spec.escaped].
  - done.
  - intros H. exfalso.
    destruct (entity_cases d) as [[He _] | [[_ He] | [[_ He] | [[_ He] | [[_ He] | [_ He]]]]]];
      rewrite He in H; by rewrite append_cons in H.
  - intros H. exfalso.
    destruct (entity_cases c) as [[He _] | [[_ He] | [[_ He] | [[_ He] | [[_ He] | [_ He]]]]]];
      rewrite He in H; by rewrite append_cons in H.
  - intros H. apply entity_prefix_inj in H as [-> H]. by rewrite (IH t H).
Qed.

Lemma entity_length (c : ascii) : (1 <= String.length (Spec.entity c))%nat.
Proof. destruct c as [[] [] [] [] [] [] [] []]; cbn; lia. Qed.

Lemma length_append (a b : string) :
  String.length (a +:+ b) = (String.length a + String.length b)%nat.
Proof.
  induction a as [|c a IH]; [done|]. rewrite append_cons. simpl. by rewrite IH.
Qed.

End EntityFacts.

(** X10. [escapeHtml] loses nothing: two different texts never escape to the
    same text, and the escaped text is never shorter than the text. *)
Theorem escapeHtml_injective (s t : string) :
  (Server.escapeHtml s = Server.escapeHtml t -> s = t)
  /\ (String.length s <= String.length (Server.escapeHtml s))%nat.
Proof.
  split.
  - rewrite !escapeHtml_escaped. apply escaped_injective.
  - rewrite escapeHtml_escaped.
    induction s as [|c s IH]; [done|].
    cbn [Spec.escaped]. rewrite length_append.
    pose proof (entity_length c). simpl. lia.
Qed.

(** ** The endpoint, response by response *)

Section EndpointFacts.
Import Js Server Shape.

Variable isEmail : string -> bool.
Variable normalizeEmail : string -> string.
Variable sendMail : MailOptions -> bool.

Local Abbreviation validate := (validate isEmail normalizeEmail).
Local Abbreviation sanitized := (sanitized normalizeEmail).
Local Abbreviation route := (route isEmail normalizeEmail sendMail).
Local Abbreviation contact := (contact isEmail normalizeEmail sendMail).
Local Abbreviation serve := (serve isEmail normalizeEmail sendMail).

(** The four ways a request ends. *)
Lemma contact_cases cfg st req :
  let h := fst (rateLimit req (hits st)) in
  let m := mail_of cfg (sanitized (body req)) in
  (snd (rateLimit req (hits st)) = Respond too_many
   /\ contact cfg st req = ({| hits := h; outbox := outbox st |}, too_many))
  \/ (snd (rateLimit req (hits st)) = Next tt
      /\ Spec.violated isEmail (body req) <> []
      /\ contact cfg st req
         = ({| hits := h; outbox := outbox st |},
            {| status := 400;
               payload := JErrors false (snd (validate (body req))) |}))
  \/ (snd (rateLimit req (hits st)) = Next tt
      /\ Spec.violated isEmail (body req) = []
      /\ sendMail m = true
      /\ contact cfg st req
         = ({| hits := h; outbox := outbox st ++ [m] |},
            {| status := 200; payload := JMessage true "Sent" |}))
  \/ (snd (rateLimit req (hits st)) = Next tt
      /\ Spec.violated isEmail (body req) = []
      /\ sendMail m = false
      /\ contact cfg st req
         = ({| hits := h; outbox := outbox st ++ [m] |},
            {| status := 500; payload := JMessage false "Failed to send email" |})).
Proof.
  intros h m. subst h m.
  destruct (snd (rateLimit req (hits st))) as [[]|r] eqn:E.
  - right. rewrite contact_next by exact E.
    destruct (decide (Spec.violated isEmail (body req) = [])) as [Hv | Hv].
    + right. rewrite route_valid by exact Hv. cbn [fst snd].
      destruct (sendMail _) eqn:Hs; [left | right]; done.
    + left. rewrite route_invalid by exact Hv. cbn [fst snd].
      by rewrite app_nil_r.
  - left. rewrite (contact_respond _ _ _ _ _ _ r) by exact E.
    assert (r = too_many) as ->; [|done].
    rewrite rateLimit_verdict in E. case_match; by simplify_eq.
Qed.

Lemma contact_mails cfg st req :
  let st' := fst (contact cfg st req) in
  let r := snd (contact cfg st req) in
  (mailed r = true
   -> outbox st' = outbox st ++ [mail_of cfg (sanitized (body req))])
  /\ (mailed r = false -> outbox st' = outbox st).
Proof.
  cbn zeta.
  destruct (contact_cases cfg st req)
    as [(Hl & ->) | [(Hl & Hv & ->) | [(Hl & Hv & Hs & ->) | (Hl & Hv & Hs & ->)]]];
    unfold mailed, too_many; cbn [status outbox fst snd Z.eqb Pos.eqb orb]; by split.
Qed.

Lemma serve_cons cfg st req reqs :
  serve cfg st (req :: reqs)
  = (fst (serve cfg (fst (contact cfg st req)) reqs),
     snd (contact cfg st req) :: snd (serve cfg (fst (contact cfg st req)) reqs)).
Proof.
  cbn [Server.serve]. destruct (contact cfg st req) as [st1 r].
  cbn [fst snd]. by destruct (serve cfg st1 reqs).
Qed.

End EndpointFacts.

(** X11. When the transport refuses a valid request that the limiter let
    pass, the handler answers 500 with [{ ok: false, message: "Failed to
    send email" }], a fixed text that carries nothing of the transport's
    error, and it has called [sendMail] exactly once: there is no second
    attempt. *)
Theorem send_failure_answers_500
    (isEmail : string -> bool) (normalizeEmail : string -> string)
    (sendMail : Server.MailOptions -> bool)
    (cfg : Server.Config) (st : Server.State) (req : Server.Request) :
  snd (Server.rateLimit req (Server.hits st)) = Server.Next tt ->
  Spec.violated isEmail (Server.body req) = [] ->
  sendMail (Server.mail_of cfg (Server.sanitized normalizeEmail (Server.body req)))
  = false ->
  snd (Server.contact isEmail normalizeEmail sendMail cfg st req)
  = {| Server.status := 500;
       Server.payload := Server.JMessage false "Failed to send email" |}
  /\ Server.outbox (fst (Server.contact isEmail normalizeEmail sendMail cfg st req))
     = Server.outbox st
       ++ [Server.mail_of cfg (Server.sanitized normalizeEmail (Server.body req))].
Proof.
  intros Hpass Hvalid Hsend.
  rewrite contact_next by exact Hpass.
  rewrite route_valid by exact Hvalid.
  by rewrite Hsend.
Qed.

Lemma send_failure_answers_500_witness :
  let req := Scenario.from_caller 0 Scenario.hello in
  snd (Server.contact Scenario.isEmail Scenario.normalizeEmail (fun _ => false)
         Scenario.cfg Scenario.idle req)
  = {| Server.status := 500;
       Server.payload := Server.JMessage false "Failed to send email" |}
  /\ Server.outbox (fst (Server.contact Scenario.isEmail Scenario.normalizeEmail
                           (fun _ => false) Scenario.cfg Scenario.idle req))
     = Server.outbox Scenario.idle
       ++ [Server.mail_of Scenario.cfg
             (Server.sanitized Scenario.normalizeEmail (Server.body req))].
Proof.
  apply (send_failure_answers_500 Scenario.isEmail Scenario.normalizeEmail
           (fun _ => false) Scenario.cfg Scenario.idle
           (Scenario.from_caller 0 Scenario.hello));
    reflexivity.
Defined.

(** X12. Every request that reaches the limiter of [/api/contact], past
    the CORS check and the body parser, is answered 200, 400, 429 or 500.
    It hands exactly one mail to the transport when the answer is 200 or
    500 and none when it is 400 or 429; the answer is 200 exactly when the
    limiter lets the request pass, the four fields are valid and the send
    succeeds; and the limiter has counted the request whatever the
    answer. *)
Theorem one_answer_one_mail
    (isEmail : string -> bool) (normalizeEmail : string -> string)
    (sendMail : Server.MailOptions -> bool)
    (cfg : Server.Config) (st : Server.State) (req : Server.Request) :
  let st' := fst (Server.contact isEmail normalizeEmail sendMail cfg st req) in
  let r := snd (Server.contact isEmail normalizeEmail sendMail cfg st req) in
  let m := Server.mail_of cfg (Server.sanitized normalizeEmail (Server.body req)) in
  (Server.status r = 200 \/ Server.status r = 400
   \/ Server.status r = 429 \/ Server.status r = 500)
  /\ (Shape.mailed r = true -> Server.outbox st' = Server.outbox st ++ [m])
  /\ (Shape.mailed r = false -> Server.outbox st' = Server.outbox st)
  /\ (Server.status r = 200 <->
      snd (Server.rateLimit req (Server.hits st)) = Server.Next tt
      /\ Spec.violated isEmail (Server.body req) = []
      /\ sendMail m = true)
  /\ Server.hits st' = fst (Server.rateLimit req (Server.hits st)).
Proof.
  intros st' r m. subst st' r m.
  pose proof (contact_mails isEmail normalizeEmail sendMail cfg st req) as [Hyes Hno].
  cbn zeta in Hyes, Hno.
  split; [|split; [exact Hyes | split; [exact Hno |]]].
  - destruct (contact_cases isEmail normalizeEmail sendMail cfg st req)
      as [(Hl & ->) | [(Hl & Hv & ->) | [(Hl & Hv & Hs & ->) | (Hl & Hv & Hs & ->)]]];
      unfold Server.too_many; cbn [Server.status snd]; tauto.
  - destruct (contact_cases isEmail normalizeEmail sendMail cfg st req)
      as [(Hl & ->) | [(Hl & Hv & ->) | [(Hl & Hv & Hs & ->) | (Hl & Hv & Hs & ->)]]];
      unfold Server.too_many; cbn [Server.status Server.hits fst snd];
      (split; [split; [intros H | intros (H1 & H2 & H3)] | done]);
      first [ discriminate | congruence | done ].
Qed.

Section TraceFacts.
Import Js Server Shape.

Variable isEmail : string -> bool.
Variable normalizeEmail : string -> string.
Variable sendMail : MailOptions -> bool.

Lemma serve_outbox cfg reqs : forall st,
  let st' := fst (serve isEmail normalizeEmail sendMail cfg st reqs) in
  let rs := snd (serve isEmail normalizeEmail sendMail cfg st reqs) in
  length rs = length reqs
  /\ exists new,
       outbox st' = outbox st ++ new
       /\ length new = length (List.filter mailed rs)
       /\ Forall (fun m => exists q, q ∈ reqs
                                     /\ m = mail_of cfg (sanitized normalizeEmail (body q)))
            new.
Proof.
  induction reqs as [|req reqs IH]; intros st; cbn zeta.
  - cbn. split; [done|]. exists []. by rewrite app_nil_r.
  - rewrite serve_cons. cbn [fst snd].
    pose proof (contact_mails isEmail normalizeEmail sendMail cfg st req)
      as (Hyes & Hno).
    cbn zeta in Hyes, Hno.
    set (st1 := fst (contact isEmail normalizeEmail sendMail cfg st req)) in *.
    set (r := snd (contact isEmail normalizeEmail sendMail cfg st req)) in *.
    destruct (IH st1) as (Hlen & new & Hout & Hnew & Hall). cbn zeta in *.
    split; [cbn; by rewrite Hlen|].
    assert (Forall (fun m => exists q, q ∈ req :: reqs
                                       /\ m = mail_of cfg (sanitized normalizeEmail (body q)))
              new) as Hall'.
    { eapply Forall_impl; [exact Hall|]. intros m (q & Hq & ->).
      exists q. split; [by right | done]. }
    cbn [List.filter]. destruct (mailed r) eqn:Hm.
    + exists (mail_of cfg (sanitized normalizeEmail (body req)) :: new).
      rewrite Hout, (Hyes eq_refl), <- app_assoc. cbn.
      repeat split; [by rewrite Hnew|].
      constructor; [|exact Hall']. exists req. split; [by left | done].
    + exists new. rewrite Hout, (Hno eq_refl). by repeat split.
Qed.

End TraceFacts.

(** X13. Over any sequence of requests that reach the limiter of
    [/api/contact], served one after the other, there is one response for
    each request; the mails handed to the transport are
    appended to those handed over before, one for each response 200 or 500;
    and each of them goes from the configured [MAIL_FROM] to the configured
    [MAIL_TO], with the reply-to, subject and texts built from the body of
    one of the requests: no request can direct a mail to another
    recipient. *)
Theorem mails_go_to_the_owner
    (isEmail : string -> bool) (normalizeEmail : string -> string)
    (sendMail : Server.MailOptions -> bool)
    (cfg : Server.Config) (st : Server.State) (reqs : list Server.Request) :
  let st' := fst (Server.serve isEmail normalizeEmail sendMail cfg st reqs) in
  let rs := snd (Server.serve isEmail normalizeEmail sendMail cfg st reqs) in
  length rs = length reqs
  /\ exists new,
       Server.outbox st' = Server.outbox st ++ new
       /\ length new = length (List.filter Shape.mailed rs)
       /\ Forall (fun m =>
                    Server.from m = Server.MAIL_FROM cfg
                    /\ Server.to m = Server.MAIL_TO cfg
                    /\ exists q,
                         q ∈ reqs
                         /\ m = Server.mail_of cfg
                                  (Server.sanitized normalizeEmail (Server.body q)))
            new.
Proof.
  intros st' rs.
  destruct (serve_outbox isEmail normalizeEmail sendMail cfg reqs st)
    as (Hlen & new & Hout & Hnew & Hall).
  split; [exact Hlen|]. exists new. repeat split; [exact Hout | exact Hnew |].
  eapply Forall_impl; [exact Hall|]. intros m (q & Hq & ->).
  repeat split. by exists q.
Qed.

(** ** The secure flag of the transport *)

Section SecureFacts.
Import Js Server Shape.

Lemma lower_char_t c : lower_char c = "t"%char <-> letter "t" "T" c.
Proof.
  unfold letter. destruct c as [[] [] [] [] [] [] [] []]; cbn;
    split; intros H; first [ discriminate H | by left | by right | by destruct H ].
Qed.

Lemma lower_char_r c : lower_char c = "r"%char <-> letter "r" "R" c.
Proof.
  unfold letter. destruct c as [[] [] [] [] [] [] [] []]; cbn;
    split; intros H; first [ discriminate H | by left | by right | by destruct H ].
Qed.

Lemma lower_char_u c : lower_char c = "u"%char <-> letter "u" "U" c.
Proof.
  unfold letter. destruct c as [[] [] [] [] [] [] [] []]; cbn;
    split; intros H; first [ discriminate H | by left | by right | by destruct H ].
Qed.

Lemma lower_char_e c : lower_char c = "e"%char <-> letter "e" "E" c.
Proof.
  unfold letter. destruct c as [[] [] [] [] [] [] [] []]; cbn;
    split; intros H; first [ discriminate H | by left | by right | by destruct H ].
Qed.

End SecureFacts.

(** X14. The transport is created secure exactly when [SMTP_SECURE] is set
    to the four letters of [true], each in either case; an absent variable,
    an empty one, and any other text (such as [1], [yes] or [true] with a
    space) give a transport that is not secure. *)
Theorem secure_only_for_true (cfg : Server.Config) :
  Server.secure cfg = true <->
  exists a b c d,
    Server.SMTP_SECURE cfg
    = Some (String a (String b (String c (String d EmptyString))))
    /\ Shape.letter "t" "T" a /\ Shape.letter "r" "R" b
    /\ Shape.letter "u" "U" c /\ Shape.letter "e" "E" d.
Proof.
  unfold Server.secure. rewrite String.eqb_eq.
  destruct (Server.SMTP_SECURE cfg) as [s|]; cbn [Js.String_of].
  - split.
    + destruct s as [|a [|b [|c [|d [|x s]]]]]; cbn [Js.toLowerCase];
        intros H; try discriminate H.
      injection H as Ha Hb Hc Hd.
      exists a, b, c, d. split; [done|].
      by rewrite <- lower_char_t, <- lower_char_r, <- lower_char_u, <- lower_char_e.
    + intros (a & b & c & d & [= ->] & Ha & Hb & Hc & Hd).
      cbn [Js.toLowerCase].
      apply lower_char_t in Ha. apply lower_char_r in Hb.
      apply lower_char_u in Hc. apply lower_char_e in Hd.
      by rewrite Ha, Hb, Hc, Hd.
  - split; [discriminate|]. by intros (a & b & c & d & H & _).
Qed.

(** ** The CORS allow-list *)

Section CorsFacts.
Import Js Server Shape Cors.

Lemma comma_free_cons c (s : string) :
  comma_free (String c s) -> Ascii.eqb c "," = false /\ comma_free s.
Proof.
  unfold comma_free. simpl. destruct (Ascii.eqb c ","); simpl; [lia|].
  intros H. by split.
Qed.

Lemma split_comma_free (x : string) : comma_free x -> split "," x = [x].
Proof.
  induction x as [|c x IH]; [done|].
  intros [Hc Hx]%comma_free_cons. simpl. by rewrite Hc, (IH Hx).
Qed.

Lemma split_append (x rest : string) :
  comma_free x -> split "," (x +:+ "," +:+ rest) = x :: split "," rest.
Proof.
  induction x as [|c x IH]; [done|].
  intros [Hc Hx]%comma_free_cons. rewrite append_cons. simpl.
  by rewrite Hc, (IH Hx).
Qed.

Lemma split_join (xs : list string) :
  xs <> [] -> Forall comma_free xs -> split "," (join "," xs) = xs.
Proof.
  induction xs as [|x xs IH]; [done|]. intros _ Hall.
  apply Forall_cons in Hall as [Hx Hxs].
  destruct xs as [|y ys].
  - by apply split_comma_free.
  - change (join "," (x :: y :: ys)) with (x +:+ "," +:+ join "," (y :: ys)).
    rewrite split_append by exact Hx. by rewrite IH.
Qed.

Lemma includes_elem (l : list string) (o : string) :
  includes l o = true <-> o ∈ l.
Proof.
  unfold includes. rewrite existsb_exists. split.
  - intros (x & Hx & ->%String.eqb_eq). by apply list_elem_of_In.
  - intros Ho. exists o. split; [by apply list_elem_of_In | apply String.eqb_refl].
Qed.

End CorsFacts.

(** X15. When [CORS_ORIGINS] is a comma-separated list of entries, the CORS
    check admits a request exactly when it carries no [Origin], an empty
    one, or an origin equal to one of the entries with the white space
    around the entry removed; so an origin with white space around it is
    never admitted. *)
Theorem cors_admits_listed_origins (cfg : Server.Config) (xs : list string) :
  xs <> [] ->
  Forall Shape.comma_free xs ->
  Server.CORS_ORIGINS cfg = Shape.join "," xs ->
  Cors.origin_ok cfg None = true
  /\ (forall o,
        Cors.origin_ok cfg (Some o) = true <->
        o = "" \/ exists x, x ∈ xs /\ o = Js.trim x)
  /\ (forall o, Cors.origin_ok cfg (Some o) = true -> Js.trim o = o).
Proof.
  intros Hne Hall Hcfg.
  assert (forall o,
            Cors.origin_ok cfg (Some o) = true <->
            o = "" \/ exists x, x ∈ xs /\ o = Js.trim x) as Hiff.
  { intros o. unfold Cors.origin_ok, Cors.allowed.
    rewrite Hcfg, split_join by assumption.
    rewrite orb_true_iff, String.eqb_eq, includes_elem, list_elem_of_fmap.
    split; (intros [? | (x & ? & ?)]; [by left | right; by exists x]). }
  split; [done|]. split; [exact Hiff|].
  intros o [-> | (x & _ & ->)]%Hiff; [done | apply trim_idem].
Qed.

Lemma cors_admits_listed_origins_witness :
  Cors.origin_ok Scenario.cfg None = true
  /\ (forall o,
        Cors.origin_ok Scenario.cfg (Some o) = true <->
        o = "" \/ exists x, x ∈ ["http://localhost:3000"] /\ o = Js.trim x)
  /\ (forall o, Cors.origin_ok Scenario.cfg (Some o) = true -> Js.trim o = o).
Proof.
  apply (cors_admits_listed_origins Scenario.cfg ["http://localhost:3000"]).
  - discriminate.
  - repeat constructor.
  - reflexivity.
Defined.

(** X16. A process that listens has its configuration complete: each of
    host, port, user, password, recipient and sender is the value the
    environment gives, and none of them is empty; the listen port, the
    environment label and the CORS list are the environment's when it sets
    them (also to the empty string) and 4000, [development] and
    [http://localhost:3000] when it does not. *)
Theorem listening_config_is_complete
    (listen : string -> bool) (env : gmap string string) (cfg : Server.Config) :
  Server.startup listen env = Server.Listening cfg ->
  (env !! "SMTP_HOST" = Some (Server.SMTP_HOST cfg) /\ Server.SMTP_HOST cfg <> "")
  /\ (env !! "SMTP_PORT" = Some (Server.SMTP_PORT cfg) /\ Server.SMTP_PORT cfg <> "")
  /\ (env !! "SMTP_USER" = Some (Server.SMTP_USER cfg) /\ Server.SMTP_USER cfg <> "")
  /\ (env !! "SMTP_PASS" = Some (Server.SMTP_PASS cfg) /\ Server.SMTP_PASS cfg <> "")
  /\ (env !! "MAIL_TO" = Some (Server.MAIL_TO cfg) /\ Server.MAIL_TO cfg <> "")
  /\ (env !! "MAIL_FROM" = Some (Server.MAIL_FROM cfg) /\ Server.MAIL_FROM cfg <> "")
  /\ Server.PORT cfg = default "4000" (env !! "PORT")
  /\ Server.NODE_ENV cfg = default "development" (env !! "NODE_ENV")
  /\ Server.CORS_ORIGINS cfg = default "http://localhost:3000" (env !! "CORS_ORIGINS").
Proof.
  unfold Server.startup.
  assert (forall x : option string,
            Js.falsy x = false -> x = Some (default "" x) /\ default "" x <> "")
    as Hpresent.
  { intros [s|]; cbn; [|done]. intros Hs%String.eqb_neq. done. }
  destruct (Js.falsy (env !! "SMTP_HOST")) eqn:H1; [done|].
  destruct (Js.falsy (env !! "SMTP_PORT")) eqn:H2; [done|].
  destruct (Js.falsy (env !! "SMTP_USER")) eqn:H3; [done|].
  destruct (Js.falsy (env !! "SMTP_PASS")) eqn:H4; [done|].
  destruct (Js.falsy (env !! "MAIL_TO")) eqn:H5; [done|].
  destruct (Js.falsy (env !! "MAIL_FROM")) eqn:H6; [done|].
  cbn [orb]. cbn zeta. destruct (listen _); [|done].
  intros [= <-]. cbn.
  repeat (split; [by apply Hpresent|]). done.
Qed.

Lemma listening_config_is_complete_witness :
  let env := Scenario.env_six in
  let cfg := Scenario.cfg in
  (env !! "SMTP_HOST" = Some (Server.SMTP_HOST cfg) /\ Server.SMTP_HOST cfg <> "")
  /\ (env !! "SMTP_PORT" = Some (Server.SMTP_PORT cfg) /\ Server.SMTP_PORT cfg <> "")
  /\ (env !! "SMTP_USER" = Some (Server.SMTP_USER cfg) /\ Server.SMTP_USER cfg <> "")
  /\ (env !! "SMTP_PASS" = Some (Server.SMTP_PASS cfg) /\ Server.SMTP_PASS cfg <> "")
  /\ (env !! "MAIL_TO" = Some (Server.MAIL_TO cfg) /\ Server.MAIL_TO cfg <> "")
  /\ (env !! "MAIL_FROM" = Some (Server.MAIL_FROM cfg) /\ Server.MAIL_FROM cfg <> "")
  /\ Server.PORT cfg = default "4000" (env !! "PORT")
  /\ Server.NODE_ENV cfg = default "development" (env !! "NODE_ENV")
  /\ Server.CORS_ORIGINS cfg = default "http://localhost:3000" (env !! "CORS_ORIGINS").
Proof.
  apply (listening_config_is_complete Scenario.listen Scenario.env_six Scenario.cfg).
  reflexivity.
Defined.

(** ** The contact form against the endpoint *)

(** X17. The form and the endpoint together: when [handleSubmit] gets the
    endpoint's response to the form's data, the form ends not submitting;
    it shows [success] exactly when the endpoint answered 200, and then its
    fields are emptied; for the answers 400 and 500 and for the limiter's
    429, whose text body is no JSON, it shows [error] and keeps what the
    user typed, as it does when [fetch] itself fails. *)
Theorem form_reports_the_answer
    (isEmail : string -> bool) (normalizeEmail : string -> string)
    (sendMail : Server.MailOptions -> bool)
    (cfg : Server.Config) (st : Server.State)
    (who : string) (t : Z) (f : Client.Form) :
  let req := {| Server.ip := who; Server.now := t;
                Server.body := Client.body_of (Client.formData f) |} in
  let r := snd (Server.contact isEmail normalizeEmail sendMail cfg st req) in
  let f' := Client.handleSubmit (Client.Replied r) f in
  Client.isSubmitting f' = false
  /\ (Client.submitStatus f' = "success" <-> Server.status r = 200)
  /\ (Server.status r = 200 -> Client.formData f' = Client.blank)
  /\ (Server.status r <> 200 ->
      Client.submitStatus f' = "error"
      /\ Client.formData f' = Client.formData f)
  /\ Client.handleSubmit Client.NetworkError f
     = {| Client.formData := Client.formData f;
          Client.isSubmitting := false;
          Client.submitStatus := "error" |}.
Proof.
  intros req r f'. subst r f'.
  destruct (contact_cases isEmail normalizeEmail sendMail cfg st req)
    as [(Hl & ->) | [(Hl & Hv & ->) | [(Hl & Hv & Hs & ->) | (Hl & Hv & Hs & ->)]]];
    cbn; repeat split; intros; done.
Qed.

(** ** The scroll spy *)

Section SpyFacts.
Import Nav.

Lemma spy_some doc y ids id :
  spy doc y ids = Some id ->
  id ∈ ids /\ exists el, doc !! id = Some el /\ inside y el = true.
Proof.
  induction ids as [|i ids IH]; [done|]. simpl.
  destruct (doc !! i) as [el|] eqn:E.
  - destruct (inside y el) eqn:Hin.
    + intros [= <-]. split; [by left | by exists el].
    + intros H. destruct (IH H) as [? ?]. split; [by right | done].
  - intros H. destruct (IH H) as [? ?]. split; [by right | done].
Qed.

Lemma spy_none doc y ids :
  (forall id el, id ∈ ids -> doc !! id = Some el -> inside y el = false) ->
  spy doc y ids = None.
Proof.
  induction ids as [|i ids IH]; [done|]. intros H. simpl.
  destruct (doc !! i) as [el|] eqn:E.
  - rewrite (H i el) by (by left || done). apply IH.
    intros id el' Hid. apply H. by right.
  - apply IH. intros id el' Hid. apply H. by right.
Qed.

Lemma spy_only doc y ids id el :
  id ∈ ids -> doc !! id = Some el -> inside y el = true ->
  (forall id' el', id' ∈ ids -> doc !! id' = Some el' -> inside y el' = true ->
                   id' = id) ->
  spy doc y ids = Some id.
Proof.
  intros Hid Hel Hin Honly.
  destruct (spy doc y ids) as [id'|] eqn:E.
  - apply spy_some in E as (Hid' & el' & Hel' & Hin').
    by rewrite (Honly id' el' Hid' Hel' Hin').
  - exfalso. induction ids as [|i ids IH]; [by apply elem_of_nil in Hid|].
    simpl in E. apply elem_of_cons in Hid as [<- | Hid].
    + by rewrite Hel, Hin in E.
    + destruct (doc !! i) as [el'|] eqn:E'.
      * destruct (inside y el'); [done|].
        apply IH; [done| |done]. intros ? ? ?. apply Honly. by right.
      * apply IH; [done| |done]. intros ? ? ?. apply Honly. by right.
Qed.

Lemma onScroll_section doc y a : a ∈ sections -> onScroll doc y a ∈ sections.
Proof.
  intros Ha. unfold onScroll.
  destruct (spy doc (y + 100) sections) as [id|] eqn:E; [|exact Ha].
  by apply spy_some in E as [? _].
Qed.

Lemma scrolls_section events : forall a, a ∈ sections -> scrolls events a ∈ sections.
Proof.
  induction events as [|e events IH]; intros a Ha; [exact Ha|].
  cbn. apply IH. by apply onScroll_section.
Qed.

End SpyFacts.

(** X18. A scroll event makes active the listed section whose box holds the
    point 100 pixels below the scroll position: when no listed section
    that exists holds it, the active section stays what it was; when
    exactly one does, that one becomes active; and whenever the active
    section changes, the new one is a listed section that exists and holds
    the point. *)
Theorem onScroll_picks_the_section
    (doc : gmap string Nav.Box) (scrollY : Z) (active : string) :
  let y := scrollY + 100 in
  let active' := Nav.onScroll doc scrollY active in
  ((forall id el, id ∈ Nav.sections -> doc !! id = Some el ->
                  Nav.inside y el = false) ->
   active' = active)
  /\ (forall id el,
        id ∈ Nav.sections -> doc !! id = Some el -> Nav.inside y el = true ->
        (forall id' el', id' ∈ Nav.sections -> doc !! id' = Some el' ->
                         Nav.inside y el' = true -> id' = id) ->
        active' = id)
  /\ (active' <> active ->
      active' ∈ Nav.sections
      /\ exists el, doc !! active' = Some el /\ Nav.inside y el = true).
Proof.
  intros y active'. subst active'. unfold Nav.onScroll. fold y.
  split; [|split].
  - intros Hnone. by rewrite spy_none.
  - intros id el Hid Hel Hin Honly. by rewrite (spy_only doc y _ id el).
  - destruct (Nav.spy doc y Nav.sections) as [id|] eqn:E; [|done].
    intros _. by apply spy_some.
Qed.

(** X19. Starting from [hero], after any run of scroll events the active
    section is one of the eight listed ids; the navigation bar highlights at
    most one item, the one of the active section, and none at all exactly
    when the active section is [certifications], which the bar does not
    list. *)
Theorem nav_highlights_active_section (events : list (gmap string Nav.Box * Z)) :
  let active := Nav.scrolls events "hero" in
  active ∈ Nav.sections
  /\ (length (Nav.highlighted active) <= 1)%nat
  /\ (forall item, item ∈ Nav.highlighted active -> fst item = active)
  /\ (Nav.highlighted active = [] <-> active = "certifications").
Proof.
  intros active.
  assert (active ∈ Nav.sections) as Hin.
  { apply scrolls_section. unfold Nav.sections. set_solver. }
  split; [exact Hin|].
  unfold Nav.sections in Hin.
  repeat (apply elem_of_cons in Hin as [-> | Hin]);
    [ .. | by apply elem_of_nil in Hin ];
    (split; [vm_compute; lia|]);
    (split; [ intros item Hitem; vm_compute in Hitem;
              repeat (apply elem_of_cons in Hitem as [-> | Hitem]); try done;
              by apply elem_of_nil in Hitem
            | split; intros H; vm_compute in H; done ]).
Qed.

(** ** The plain text of the mail *)

Section TextFacts.
Import Js Server Shape.

Lemma trimEnd_trim (s : string) : trimEnd (trim s) = trim s.
Proof. unfold trim. apply trimEnd_trimStart, trimEnd_idem. Qed.

Lemma trimEnd_append_nonempty (a s : string) :
  trimEnd s <> "" -> trimEnd (a +:+ s) <> "".
Proof.
  intros Hs. rewrite trimEnd_append_kept by exact Hs.
  by apply append_nonempty_r.
Qed.

Lemma text_of_frame (b : Body) :
  trimEnd (message b) = message b -> message b <> "" ->
  text_of b = text_frame (name b) (email b) (subject b) (message b).
Proof.
  intros Hfix Hne. unfold text_of, trim.
  assert (trimEnd (message b +:+ nl) = message b) as Hlast
    by (by rewrite trimEnd_append_blank).
  assert (trimEnd (message b +:+ nl) <> "") as Hkept by (by rewrite Hlast).
  repeat (rewrite trimEnd_append_kept
            by (repeat lazymatch goal with
                  | |- trimEnd (message b +:+ nl) <> "" => exact Hkept
                  | |- trimEnd (_ +:+ _) <> "" => apply trimEnd_append_nonempty
                  end)).
  rewrite Hlast. reflexivity.
Qed.

End TextFacts.

(** X20. The plain text of every mail the handler hands to [sendMail] is
    the fixed lines around the four fields as the handler reads them from
    [req.body], exactly as they are: nothing of them is escaped, and the
    final [trim()] of the template removes only the template's own first
    and last line break. This holds of the mail the handler builds from a
    sanitised body whose message is not empty after trimming, and so from
    every body that passes validation; of every mail the route sends, which
    for a valid body is that one mail; and of every mail a request adds to
    the outbox. *)
Theorem text_carries_fields_verbatim
    (isEmail : string -> bool) (normalizeEmail : string -> string)
    (sendMail : Server.MailOptions -> bool)
    (cfg : Server.Config) (b : Server.Body) :
  let b' := Server.sanitized normalizeEmail b in
  let verbatim :=
    Shape.text_frame (Js.trim (Server.name b)) (normalizeEmail (Server.email b))
      (Js.trim (Server.subject b)) (Js.trim (Server.message b)) in
  (Js.trim (Server.message b) <> "" \/ Spec.violated isEmail b = [] ->
   Server.text (Server.mail_of cfg b') = verbatim)
  /\ (Spec.violated isEmail b = [] ->
      fst (Server.route isEmail normalizeEmail sendMail cfg b)
      = [Server.mail_of cfg b'])
  /\ (forall m,
        m ∈ fst (Server.route isEmail normalizeEmail sendMail cfg b) ->
        Server.text m = verbatim)
  /\ (forall st req m,
        Server.body req = b ->
        m ∈ Server.outbox
              (fst (Server.contact isEmail normalizeEmail sendMail cfg st req)) ->
        m ∈ Server.outbox st \/ Server.text m = verbatim).
Proof.
  intros b' verbatim.
  assert (Js.trim (Server.message b) <> "" \/ Spec.violated isEmail b = [] ->
          Server.text (Server.mail_of cfg b') = verbatim) as Hmail.
  { intros Hne. cbn [Server.text Server.mail_of].
    rewrite text_of_frame; [reflexivity | apply trimEnd_trim |].
    destruct Hne as [Hne | Hvalid]; [exact Hne|].
    rewrite violated_eq in Hvalid.
    apply app_eq_nil in Hvalid as [_ Hvalid].
    apply app_eq_nil in Hvalid as [_ Hvalid].
    apply app_eq_nil in Hvalid as [_ Hvalid].
    unfold b'. cbn [Server.sanitized Server.message].
    destruct (Server.isLength 5 5000 (Js.trim (Server.message b))) eqn:Hlen;
      [|done].
    intros Hempty. rewrite Hempty in Hlen. done. }
  assert (forall m,
            m ∈ fst (Server.route isEmail normalizeEmail sendMail cfg b) ->
            Server.text m = verbatim) as Hroute.
  { intros m Hm.
    destruct (decide (Spec.violated isEmail b = [])) as [Hv | Hv].
    - rewrite (route_valid isEmail normalizeEmail sendMail cfg b Hv) in Hm.
      cbn [fst] in Hm. apply list_elem_of_singleton in Hm as ->.
      apply Hmail. by right.
    - rewrite (route_invalid isEmail normalizeEmail sendMail cfg b Hv) in Hm.
      cbn [fst] in Hm. by apply elem_of_nil in Hm. }
  split; [exact Hmail|].
  split; [intros Hv; by rewrite (route_valid isEmail normalizeEmail sendMail cfg b Hv)|].
  split; [exact Hroute|].
  intros st req m Hb Hm. subst b.
  destruct (snd (Server.rateLimit req (Server.hits st))) as [[]|r] eqn:E.
  - rewrite contact_next in Hm by exact E. cbn [fst Server.outbox] in Hm.
    apply elem_of_app in Hm as [Hm | Hm]; [by left | right; by apply Hroute].
  - rewrite (contact_respond _ _ _ _ _ _ r) in Hm by exact E. by left.
Qed.

(** The mail for the worked request, as it is handed to the transport. *)
Lemma text_carries_fields_verbatim_witness :
  fst (Server.route Scenario.isEmail Scenario.normalizeEmail Scenario.sendMail
         Scenario.cfg Scenario.hello)
  = [Server.mail_of Scenario.cfg
       (Server.sanitized Scenario.normalizeEmail Scenario.hello)]
  /\ Server.text
       (Server.mail_of Scenario.cfg
          (Server.sanitized Scenario.normalizeEmail Scenario.hello))
     = Shape.text_frame (Js.trim (Server.name Scenario.hello))
         (Scenario.normalizeEmail (Server.email Scenario.hello))
         (Js.trim (Server.subject Scenario.hello))
         (Js.trim (Server.message Scenario.hello)).
Proof.
  pose proof (text_carries_fields_verbatim Scenario.isEmail
                Scenario.normalizeEmail Scenario.sendMail Scenario.cfg
                Scenario.hello) as (Hmail & Hone & _).
  split; [apply Hone; reflexivity | apply Hmail; right; reflexivity].
Defined.
